(** * Webpage summarizer (main.py): a shallow embedding and its properties

    The program is a linear pipeline: fetch a page, extract its readable
    text, cut the text into overlapping chunks, ask a generative model for a
    JSON summary of each chunk, and merge the summaries with one last model
    call.  The pure parts (string slicing, the chunker, the JSON-repair
    cascade, the word filter, the merge step) are embedded as functions; the
    outside world (HTTP, the HTML parser's tree, the credential, the model
    endpoint, the JSON decoder) enters as explicit parameters. *)

From Stdlib Require Import ZArith NArith List Bool Lia String Ascii DecimalString.
From Stdlib Require Import Floats.SpecFloat.
Import ListNotations.

Open Scope Z_scope.

(** ** Python strings

    A Python [str] is a sequence of Unicode code points; [len] counts code
    points.  A character is its code point. *)

Definition char := N.
Definition str := list char.

Definition chr (a : ascii) : char := N_of_ascii a.

Fixpoint of_string (s : string) : str :=
  match s with
  | EmptyString => []
  | String a r => chr a :: of_string r
  end.

Definition len {A : Type} (s : list A) : Z := Z.of_nat (List.length s).

Definition NL : char := 10%N.
Definition SP : char := 32%N.

(** [str.isspace] on one character, which is also what [\s] matches in a
    [str] pattern and what [split()] and [strip()] treat as white space. *)
Definition is_space (c : char) : bool :=
  ((9 <=? c) && (c <=? 13) || (28 <=? c) && (c <=? 32)
   || (c =? 133) || (c =? 160) || (c =? 5760)
   || (8192 <=? c) && (c <=? 8202)
   || (c =? 8232) || (c =? 8233) || (c =? 8239) || (c =? 8287)
   || (c =? 12288))%N.

(** Slice bounds as Python normalises them: a negative index counts from the
    end, and the result is clamped into [0, len]. *)
Definition clamp_index (l x : Z) : Z :=
  if x <? 0 then Z.max 0 (x + l) else Z.min x l.

(** [s[a:b]] *)
Definition slice {A : Type} (s : list A) (a b : Z) : list A :=
  let a' := clamp_index (len s) a in
  let b' := clamp_index (len s) b in
  firstn (Z.to_nat (b' - a')) (skipn (Z.to_nat a') s).

(** [s[:b]] *)
Definition slice_to {A : Type} (s : list A) (b : Z) : list A := slice s 0 b.

(** [s.rfind(c)] for a one-character needle: the highest index holding [c],
    or -1. *)
Fixpoint rfind_from (c : char) (s : str) (i last : Z) : Z :=
  match s with
  | [] => last
  | x :: r => rfind_from c r (i + 1) (if (x =? c)%N then i else last)
  end.

Definition rfind (c : char) (s : str) : Z := rfind_from c s 0 (-1).

(** [s.strip()] *)
Fixpoint lstrip (s : str) : str :=
  match s with
  | [] => []
  | x :: r => if is_space x then lstrip r else s
  end.

Fixpoint rstrip (s : str) : str :=
  match s with
  | [] => []
  | x :: r =>
      match rstrip r with
      | [] => if is_space x then [] else [x]
      | r' => x :: r'
      end
  end.

Definition strip (s : str) : str := rstrip (lstrip s).

(** [s.split()]: the maximal runs of non-space characters, in order.
    [cur] holds the current run reversed. *)
Fixpoint split_from (s : str) (cur : str) : list str :=
  match s with
  | [] => match cur with [] => [] | _ => [rev cur] end
  | x :: r =>
      if is_space x
      then match cur with
           | [] => split_from r []
           | _ => rev cur :: split_from r []
           end
      else split_from r (x :: cur)
  end.

Definition split (s : str) : list str := split_from s [].

(** [sep.join(parts)] *)
Fixpoint join (sep : str) (parts : list str) : str :=
  match parts with
  | [] => []
  | [p] => p
  | p :: rest => p ++ sep ++ join sep rest
  end.

(** ** The float comparison of the chunker

    [n*0.6] converts the int [n] to a binary64 float (round to nearest
    even), multiplies by the double nearest to 0.6, and [j > n*0.6] compares
    the int [j] with that float exactly.  (The conversion raises for
    [n >= 2^1024]; the loop only runs for [n < len(s)], so no string reaches
    that.  It raises for a negative [n] of that size as well, which the
    properties of negative [n] exclude.) *)

Definition float := spec_float.

Definition float_of_int (n : Z) : float := binary_normalize 53 1024 n 0 false.

(** The double written [0.6]: 0x1.3333333333333p-1. *)
Definition f0_6 : float := S754_finite false 5404319552844595 (-53).

Definition int_mul_float (n : Z) (f : float) : float :=
  SFmul 53 1024 (float_of_int n) f.

(** [j > f] for an int [j] and a float [f]. *)
Definition int_gt_float (j : Z) (f : float) : bool :=
  match f with
  | S754_nan => false
  | S754_infinity s => s
  | S754_zero _ => 0 <? j
  | S754_finite s m e =>
      let v := if s then Z.neg m else Z.pos m in
      if 0 <=? e then v * 2 ^ e <? j else v <? j * 2 ^ (- e)
  end.

(** ** The chunker *)

(** One pass of the loop body at offset [i]: the segment that is yielded. *)
Definition segment (s : str) (n i : Z) : str :=
  let seg := slice s i (i + n) in
  let j := rfind NL seg in
  if int_gt_float j (int_mul_float n f0_6) then slice_to seg j else seg.

(** [i += max(1, len(seg) - overlap)] *)
Definition advance (seg : str) (overlap i : Z) : Z :=
  i + Z.max 1 (len seg - overlap).

(** The [while i < len(s)] loop.  [None] means the fuel ran out before the
    loop condition failed. *)
Fixpoint chunks_loop (fuel : nat) (s : str) (n overlap i : Z)
  : option (list str) :=
  if i <? len s then
    match fuel with
    | O => None
    | S fuel' =>
        let seg := segment s n i in
        option_map (cons seg) (chunks_loop fuel' s n overlap (advance seg overlap i))
    end
  else Some [].

(** The generator, run to exhaustion.  Every pass advances [i] by at least
    one, so [len(s)] passes are enough. *)
Definition chunks (s : str) (n overlap : Z) : option (list str) :=
  if len s <=? n then Some [s]
  else chunks_loop (List.length s) s n overlap 0.

(** The same loop, also recording the offset [i] at which each segment was
    cut. *)
Fixpoint spans_loop (fuel : nat) (s : str) (n overlap i : Z)
  : option (list (Z * str)) :=
  if i <? len s then
    match fuel with
    | O => None
    | S fuel' =>
        let seg := segment s n i in
        option_map (cons (i, seg)) (spans_loop fuel' s n overlap (advance seg overlap i))
    end
  else Some [].

Definition chunk_spans (s : str) (n overlap : Z) : option (list (Z * str)) :=
  if len s <=? n then Some [(0, s)]
  else spans_loop (List.length s) s n overlap 0.

(** ** Exceptions *)

Inductive exn :=
| SystemExit (msg : str)
| HTTPError
| JSONDecodeError
| AttributeError
| TypeError
| OtherError (name : str).

(** [SystemExit] derives from [BaseException] only: [except Exception]
    lets it through. *)
Definition is_Exception (e : exn) : bool :=
  match e with
  | SystemExit _ => false
  | _ => true
  end.

Inductive result (A : Type) :=
| Ok (a : A)
| Raise (e : exn).
Arguments Ok {A} a.
Arguments Raise {A} e.

(** [try: r  except Exception: h] *)
Definition try_except {A : Type} (r : result A) (h : result A) : result A :=
  match r with
  | Ok a => Ok a
  | Raise e => if is_Exception e then h else Raise e
  end.

(** ** Regular expressions

    The two patterns of [parse_json] use literals, one capture group and
    starred character classes, greedy or lazy.  [re_search] is the
    backtracking search of [re.search]: leftmost start, and at each star the
    greedy one tries the longest run first, the lazy one the shortest. *)

Inductive atom :=
| Lit (c : char)
| Star (greedy : bool) (p : char -> bool)
| GroupOpen
| GroupClose.

Definition regex := list atom.

(** A match in progress: the bounds of group 1 seen so far. *)
Definition capture := (nat * nat)%type.

Section Stars.
Variable p : char -> bool.
Variable k : nat -> str -> option capture.

Fixpoint star_greedy (i : nat) (s : str) : option capture :=
  match s with
  | x :: r =>
      if p x then
        match star_greedy (S i) r with
        | Some c => Some c
        | None => k i s
        end
      else k i s
  | [] => k i s
  end.

Fixpoint star_lazy (i : nat) (s : str) : option capture :=
  match k i s with
  | Some c => Some c
  | None =>
      match s with
      | x :: r => if p x then star_lazy (S i) r else None
      | [] => None
      end
  end.
End Stars.

(** Match [re] against [s], the suffix of the subject that starts at
    position [i]. *)
Fixpoint match_here (re : regex) (g : capture) (i : nat) (s : str)
  : option capture :=
  match re with
  | [] => Some g
  | Lit c :: re' =>
      match s with
      | x :: r => if (x =? c)%N then match_here re' g (S i) r else None
      | [] => None
      end
  | Star true p :: re' => star_greedy p (match_here re' g) i s
  | Star false p :: re' => star_lazy p (match_here re' g) i s
  | GroupOpen :: re' => match_here re' (i, snd g) i s
  | GroupClose :: re' => match_here re' (fst g, i) i s
  end.

Fixpoint search_from (re : regex) (i : nat) (s : str) : option capture :=
  match match_here re (0%nat, 0%nat) i s with
  | Some c => Some c
  | None =>
      match s with
      | _ :: r => search_from re (S i) r
      | [] => None
      end
  end.

(** [re.search(re, s)] followed by [.group(1)]; [None] when there is no
    match. *)
Definition re_search (re : regex) (s : str) : option str :=
  match search_from re 0%nat s with
  | Some (a, b) => Some (firstn (b - a) (skipn a s))
  | None => None
  end.

Definition lits (s : string) : regex := map Lit (of_string s).

(** [.] under [re.S] *)
Definition any_char (_ : char) : bool := true.

(** [r"```json\s*(\{.*?\})\s*```"] with [re.S] *)
Definition fenced_re : regex :=
  lits "```json" ++ [Star true is_space; GroupOpen; Lit (chr "{");
                     Star false any_char; Lit (chr "}"); GroupClose;
                     Star true is_space] ++ lits "```".

(** [r"(\{.*\})"] with [re.S] *)
Definition braced_re : regex :=
  [GroupOpen; Lit (chr "{"); Star true any_char; Lit (chr "}"); GroupClose].

(** [re.sub(r"\s+", " ", s)]: every maximal run of white space becomes one
    space.  [in_run] tells that the previous character was white space. *)
Fixpoint collapse_from (s : str) (in_run : bool) : str :=
  match s with
  | [] => []
  | x :: r =>
      if is_space x
      then if in_run then collapse_from r true else SP :: collapse_from r true
      else x :: collapse_from r false
  end.

Definition collapse_spaces (s : str) : str := collapse_from s false.

(** ** JSON values and Python dictionaries *)

#[local] Unset Elimination Schemes.
Inductive json :=
| JNull
| JBool (b : bool)
| JInt (z : Z)
| JFloat (f : float)
| JStr (s : str)
| JList (l : list json)
| JDict (d : list (str * json)).
#[local] Set Elimination Schemes.

Fixpoint str_eqb (a b : str) : bool :=
  match a, b with
  | [], [] => true
  | x :: a', y :: b' => (x =? y)%N && str_eqb a' b'
  | _, _ => false
  end.

(** A [dict] keeps its keys in insertion order and holds each key once. *)
Definition dict := list (str * json).

Fixpoint dict_lookup (d : dict) (k : str) : option json :=
  match d with
  | [] => None
  | (k', v) :: d' => if str_eqb k' k then Some v else dict_lookup d' k
  end.

(** [d[k] = v] *)
Fixpoint dict_set (d : dict) (k : str) (v : json) : dict :=
  match d with
  | [] => [(k, v)]
  | (k', v') :: d' =>
      if str_eqb k' k then (k', v) :: d' else (k', v') :: dict_set d' k v
  end.

(** [d.get(k, default)] *)
Definition dict_get (d : dict) (k : str) (default : json) : json :=
  match dict_lookup d k with
  | Some v => v
  | None => default
  end.

(** [d.setdefault(k, default)], for its effect on [d] *)
Definition dict_setdefault (d : dict) (k : str) (default : json) : dict :=
  match dict_lookup d k with
  | Some _ => d
  | None => dict_set d k default
  end.

(** Truth value of an object, as [or], [not] and [if] test it. *)
Definition truthy (v : json) : bool :=
  match v with
  | JNull => false
  | JBool b => b
  | JInt z => negb (z =? 0)
  | JFloat (S754_zero _) => false
  | JFloat _ => true
  | JStr s => match s with [] => false | _ => true end
  | JList l => match l with [] => false | _ => true end
  | JDict d => match d with [] => false | _ => true end
  end.

(** ** A JSON decoder

    [json.loads] is library code; [parse_json] below takes the decoder as a
    parameter.  [json_loads] is the decoder used to run examples: the
    grammar CPython's scanner accepts (the JSON grammar plus [NaN],
    [Infinity] and [-Infinity]), strict about control characters in
    strings.  [None] stands for a raised [JSONDecodeError]. *)

Definition is_json_ws (c : char) : bool :=
  ((c =? 32) || (c =? 9) || (c =? 10) || (c =? 13))%N.

Fixpoint skip_ws (s : str) : str :=
  match s with
  | x :: r => if is_json_ws x then skip_ws r else s
  | [] => []
  end.

Definition is_digit (c : char) : bool := ((48 <=? c) && (c <=? 57))%N.

Definition hex_digit (c : char) : option N :=
  (if (48 <=? c) && (c <=? 57) then Some (c - 48)
   else if (97 <=? c) && (c <=? 102) then Some (c - 87)
   else if (65 <=? c) && (c <=? 70) then Some (c - 55)
   else None)%N.

Definition hex4 (a b c d : char) : option N :=
  match hex_digit a, hex_digit b, hex_digit c, hex_digit d with
  | Some x, Some y, Some z, Some w => Some (((x * 16 + y) * 16 + z) * 16 + w)%N
  | _, _, _, _ => None
  end.

(** The one-letter escapes after a backslash. *)
Definition unescape (c : char) : option char :=
  (if c =? 34 then Some 34
   else if c =? 92 then Some 92
   else if c =? 47 then Some 47
   else if c =? 98 then Some 8
   else if c =? 102 then Some 12
   else if c =? 110 then Some 10
   else if c =? 114 then Some 13
   else if c =? 116 then Some 9
   else None)%N.

Definition is_high_surrogate (u : N) : bool := ((55296 <=? u) && (u <=? 56319))%N.
Definition is_low_surrogate (u : N) : bool := ((56320 <=? u) && (u <=? 57343))%N.

(** The body of a string literal, after its opening quote; [acc] is the
    decoded text so far, reversed.  Returns the text and what follows the
    closing quote. *)
Fixpoint scanstring (s : str) (acc : str) : option (str * str) :=
  match s with
  | [] => None
  | c :: r =>
      if (c =? 34)%N then Some (rev acc, r)
      else if (c =? 92)%N then
        match r with
        | [] => None
        | e :: r1 =>
            if (e =? 117)%N then
              match r1 with
              | h1 :: h2 :: h3 :: h4 :: r2 =>
                  match hex4 h1 h2 h3 h4 with
                  | None => None
                  | Some u =>
                      match r2 with
                      | b :: v :: g1 :: g2 :: g3 :: g4 :: r3 =>
                          if is_high_surrogate u && (b =? 92)%N && (v =? 117)%N
                          then match hex4 g1 g2 g3 g4 with
                               | None => None
                               | Some u2 =>
                                   if is_low_surrogate u2
                                   then scanstring r3
                                          ((65536 + (u - 55296) * 1024 + (u2 - 56320))%N :: acc)
                                   else scanstring r2 (u :: acc)
                               end
                          else scanstring r2 (u :: acc)
                      | _ => scanstring r2 (u :: acc)
                      end
                  end
              | _ => None
              end
            else
              match unescape e with
              | Some x => scanstring r1 (x :: acc)
              | None => None
              end
        end
      else if (c <? 32)%N then None
      else scanstring r (c :: acc)
  end.

(** A run of decimal digits: their value, their number, and the rest. *)
Fixpoint digits (s : str) (val : Z) (count : Z) : Z * Z * str :=
  match s with
  | x :: r =>
      if is_digit x then digits r (val * 10 + Z.of_N (x - 48)) (count + 1)
      else (val, count, s)
  | [] => (val, count, [])
  end.

(** The binary64 nearest to [m * 10^e] (ties to even), with sign [neg]. *)
Definition float_of_decimal (neg : bool) (m e : Z) : float :=
  match m with
  | Z.pos p =>
      if 0 <=? e then binary_normalize 53 1024 (if neg then - (m * 10 ^ e) else m * 10 ^ e) 0 false
      else
        let '(q, e', l) := SFdiv_core_binary 53 1024 m 0 (10 ^ (- e)) 0 in
        binary_round_aux 53 1024 neg q e' l
  | _ => S754_zero neg
  end.

(** The integer part of a number: [0], or a digit 1-9 followed by digits. *)
Definition int_part (s : str) : option (Z * str) :=
  match s with
  | x :: r =>
      if (x =? 48)%N then Some (0, r)
      else if is_digit x then
        let '(v, _, r') := digits s 0 0 in Some (v, r')
      else None
  | [] => None
  end.

(** The optional fraction: value of the digits, how many, and the rest. *)
Definition frac_part (s : str) : Z * Z * str :=
  match s with
  | dot :: x :: _ =>
      if (dot =? 46)%N && is_digit x then digits (tl s) 0 0 else (0, 0, s)
  | _ => (0, 0, s)
  end.

(** The optional exponent: [e] or [E], an optional sign, at least one
    digit; otherwise nothing is consumed. *)
Definition exp_part (s : str) : option (Z * str) :=
  match s with
  | e :: r =>
      if ((e =? 101) || (e =? 69))%N then
        let '(neg, r1) :=
          match r with
          | sg :: r' =>
              if (sg =? 45)%N then (true, r')
              else if (sg =? 43)%N then (false, r')
              else (false, r)
          | [] => (false, r)
          end in
        let '(v, c, r2) := digits r1 0 0 in
        if 0 <? c then Some (if neg then - v else v, r2) else None
      else None
  | [] => None
  end.

Definition match_number (s : str) : option (json * str) :=
  let '(neg, s1) :=
    match s with
    | x :: r => if (x =? 45)%N then (true, r) else (false, s)
    | [] => (false, s)
    end in
  match int_part s1 with
  | None => None
  | Some (i, s2) =>
      let '(f, fc, s3) := frac_part s2 in
      match exp_part s3 with
      | Some (e, s4) =>
          Some (JFloat (float_of_decimal neg (i * 10 ^ fc + f) (e - fc)), s4)
      | None =>
          if 0 <? fc
          then Some (JFloat (float_of_decimal neg (i * 10 ^ fc + f) (- fc)), s3)
          else Some (JInt (if neg then - i else i), s3)
      end
  end.

(** [s] starts with the characters of [w]: the rest of [s]. *)
Fixpoint eat (w s : str) : option str :=
  match w with
  | [] => Some s
  | c :: w' =>
      match s with
      | x :: r => if (x =? c)%N then eat w' r else None
      | [] => None
      end
  end.

Definition constant (w : string) (v : json) (s : str) : option (json * str) :=
  option_map (fun r => (v, r)) (eat (of_string w) s).

(** [scan_once], with the two loops of the object and the array parsers.
    Every call of [scan_once] consumes a character, so fuel in the length of
    the input never runs out. *)
Fixpoint scan_once (fuel : nat) (s : str) : option (json * str) :=
  match fuel with
  | O => None
  | S fuel' =>
      match s with
      | [] => None
      | c :: r =>
          if (c =? 34)%N then
            option_map (fun '(x, r') => (JStr x, r')) (scanstring r [])
          else if (c =? 123)%N then
            match skip_ws r with
            | x :: r' =>
                if (x =? 125)%N then Some (JDict [], r')
                else option_map (fun '(d, r'') => (JDict d, r''))
                                (object_loop fuel' (x :: r') [])
            | [] => None
            end
          else if (c =? 91)%N then
            match skip_ws r with
            | x :: r' =>
                if (x =? 93)%N then Some (JList [], r')
                else option_map (fun '(l, r'') => (JList l, r''))
                                (array_loop fuel' (x :: r') [])
            | [] => None
            end
          else if (c =? 110)%N then constant "null" JNull s
          else if (c =? 116)%N then constant "true" (JBool true) s
          else if (c =? 102)%N then constant "false" (JBool false) s
          else if (c =? 78)%N then constant "NaN" (JFloat S754_nan) s
          else if (c =? 73)%N then constant "Infinity" (JFloat (S754_infinity false)) s
          else
            match constant "-Infinity" (JFloat (S754_infinity true)) s with
            | Some x => Some x
            | None => match_number s
            end
      end
  end

with object_loop (fuel : nat) (s : str) (d : dict) : option (dict * str) :=
  match fuel with
  | O => None
  | S fuel' =>
      match s with
      | q :: r =>
          if (q =? 34)%N then
            match scanstring r [] with
            | None => None
            | Some (key, r1) =>
                match skip_ws r1 with
                | colon :: r2 =>
                    if (colon =? 58)%N then
                      match scan_once fuel' (skip_ws r2) with
                      | None => None
                      | Some (v, r3) =>
                          let d' := dict_set d key v in
                          match skip_ws r3 with
                          | x :: r4 =>
                              if (x =? 125)%N then Some (d', r4)
                              else if (x =? 44)%N then object_loop fuel' (skip_ws r4) d'
                              else None
                          | [] => None
                          end
                      end
                    else None
                | [] => None
                end
            end
          else None
      | [] => None
      end
  end

with array_loop (fuel : nat) (s : str) (l : list json) : option (list json * str) :=
  match fuel with
  | O => None
  | S fuel' =>
      match scan_once fuel' s with
      | None => None
      | Some (v, r1) =>
          match skip_ws r1 with
          | x :: r2 =>
              if (x =? 93)%N then Some (l ++ [v], r2)
              else if (x =? 44)%N then array_loop fuel' (skip_ws r2) (l ++ [v])
              else None
          | [] => None
          end
      end
  end.

(** [json.loads(s)]: one value, white space allowed around it, nothing
    else. *)
Definition json_loads (s : str) : option json :=
  match scan_once (S (2 * List.length s)) (skip_ws s) with
  | Some (v, r) => match skip_ws r with [] => Some v | _ => None end
  | None => None
  end.

(** Text with ['] standing for the double quote, for writing JSON. *)
Definition qq (s : string) : str :=
  map (fun c => if (c =? 39)%N then 34%N else c) (of_string s).

(** ** parse_json *)

Definition is_empty {A : Type} (s : list A) : bool :=
  match s with [] => true | _ => false end.

(** [a or b] on match objects *)
Definition or_else {A : Type} (a b : option A) : option A :=
  match a with
  | Some x => Some x
  | None => b
  end.

(** A call of the decoder: it returns a value or raises. *)
Definition call_loads (loads : str -> option json) (s : str) : result json :=
  match loads s with
  | Some v => Ok v
  | None => Raise JSONDecodeError
  end.

Definition fallback (s : str) : json :=
  JDict [(of_string "abstract", JStr (strip s)); (of_string "bullets", JList [])].

Definition parse_json (loads : str -> option json) (s : str) : result json :=
  try_except (call_loads loads s)
    (match or_else (re_search fenced_re s) (re_search braced_re s) with
     | Some g => try_except (call_loads loads g) (Ok (fallback s))
     | None => Ok (fallback s)
     end).

(** ** The parsed page

    The tree the HTML parser hands back.  A [NavString] is a text node;
    [visible] is false for the kinds [get_text] leaves out (comments and the
    like). *)

#[local] Unset Elimination Schemes.
Inductive node :=
| NavString (visible : bool) (s : str)
| Tag (name : str) (contents : list node).
#[local] Set Elimination Schemes.

(** The [BeautifulSoup] object: the top-level nodes of the document. *)
Definition soup := list node.

Definition name_in (name : str) (names : list str) : bool :=
  existsb (str_eqb name) names.

(** [find_all(names)]: the tags with one of the names, in document order;
    here over a node and everything below it. *)
Fixpoint find_all (names : list str) (n : node) : list node :=
  match n with
  | NavString _ _ => []
  | Tag name kids =>
      (if name_in name names then [n] else []) ++ flat_map (find_all names) kids
  end.

(** What is left of a node once every tag with one of the names has been
    decomposed. *)
Fixpoint decompose_all (names : list str) (n : node) : list node :=
  match n with
  | NavString _ _ => [n]
  | Tag name kids =>
      if name_in name names then []
      else [Tag name (flat_map (decompose_all names) kids)]
  end.

Fixpoint strings (n : node) : list str :=
  match n with
  | NavString v s => if v then [s] else []
  | Tag _ kids => flat_map strings kids
  end.

(** [t.get_text(sep, strip=True)] *)
Definition get_text (sep : str) (t : node) : str :=
  match t with
  | NavString _ s => s
  | Tag _ kids =>
      join sep (filter (fun x => negb (is_empty x)) (map strip (flat_map strings kids)))
  end.

(** [t.string] *)
Fixpoint tag_string (n : node) : option str :=
  match n with
  | NavString _ s => Some s
  | Tag _ [c] => tag_string c
  | Tag _ _ => None
  end.

Definition names_of (l : list string) : list str := map of_string l.

Definition removed_tags : list str :=
  names_of ["script"; "style"; "noscript"; "header"; "footer"; "nav"; "aside";
            "form"; "svg"; "img"; "video"; "audio"; "iframe"; "canvas"]%string.

Definition text_tags : list str :=
  names_of ["h1"; "h2"; "h3"; "p"; "li"; "blockquote"]%string.

(** ** fetch_clean *)

(** The [for] loop over the fragments: [parts.append(txt)] when [txt] is
    non-empty and has at least three words. *)
Definition collect_parts (txts : list str) : list str :=
  fold_left
    (fun parts txt =>
       if negb (is_empty txt) && (3 <=? len (split txt)) then parts ++ [txt]
       else parts)
    txts [].

Definition clean_text (parts : list str) : str :=
  strip (collapse_spaces (join [NL] parts)).

Definition no_text_msg : str :=
  of_string "Could not extract readable text from the page.".

(** [(soup.title.string or "").strip() if soup.title else ""] *)
Definition page_title (page : soup) : str :=
  match flat_map (find_all [of_string "title"]) page with
  | t :: _ =>
      strip (match tag_string t with
             | Some s => s
             | None => []
             end)
  | [] => []
  end.

(** The texts [t.get_text(" ", strip=True)] of the text-bearing tags that
    are left once the unwanted tags are decomposed, in document order. *)
Definition fragments (page : soup) : list str :=
  map (get_text [SP])
      (flat_map (find_all text_tags) (flat_map (decompose_all removed_tags) page)).

(** Everything [fetch_clean] does once the page is parsed. *)
Definition extract (page : soup) : result (str * str) :=
  let title := page_title page in
  let text := clean_text (collect_parts (fragments page)) in
  if is_empty text then Raise (SystemExit no_text_msg)
  else Ok (title, text).

(** ** The outside world

    Calls that reach outside the process thread a world state [W] and may
    raise. *)

Definition M (W A : Type) : Type := W -> result A * W.

Definition ret {W A : Type} (a : A) : M W A := fun w => (Ok a, w).

Definition raise {W A : Type} (e : exn) : M W A := fun w => (Raise e, w).

Definition bind {W A B : Type} (m : M W A) (k : A -> M W B) : M W B :=
  fun w =>
    match m w with
    | (Ok a, w') => k a w'
    | (Raise e, w') => (Raise e, w')
    end.

Definition lift {W A : Type} (r : result A) : M W A := fun w => (r, w).

Notation "x <- m ;; k" := (bind m (fun x => k))
  (at level 61, m at next level, right associativity).
Notation "' p <- m ;; k" := (bind m (fun x => let 'p := x in k))
  (at level 61, p pattern, m at next level, right associativity).

Fixpoint mapM {W A B : Type} (f : A -> M W B) (l : list A) : M W (list B) :=
  match l with
  | [] => ret []
  | a :: l' => b <- f a ;; bs <- mapM f l' ;; ret (b :: bs)
  end.

Record prompt := { role : str; parts : list str }.

(** What [summarize_block] reads from a response: its [text] attribute
    ([None] when absent or None) and, for each candidate, the [text]
    attributes of its content parts. *)
Record response := {
  resp_text : option str;
  resp_candidates : list (list (option str))
}.

Record model := { model_name : str; json_mode : bool }.

Record world (W : Type) := {
  (** [load_dotenv(); os.getenv("GEMINI_API_KEY")] *)
  getenv_key : W -> option str;
  (** [requests.get], [raise_for_status] and the HTML parser *)
  http_get : str -> M W soup;
  (** whether [GenerativeModel(name, generation_config=...)] is accepted *)
  accepts_config : str -> bool;
  (** [model.generate_content(prompt)] *)
  generate_content : model -> prompt -> M W response;
  (** [json.loads] *)
  loads : str -> option json
}.
Arguments getenv_key {W}.
Arguments http_get {W}.
Arguments accepts_config {W}.
Arguments generate_content {W}.
Arguments loads {W}.

Definition load_key {W : Type} (E : world W) : M W str :=
  fun w =>
    match getenv_key E w with
    | Some k => if is_empty k then (Raise (SystemExit (of_string "set GEMINI_API_KEY in .env")), w)
                else (Ok k, w)
    | None => (Raise (SystemExit (of_string "set GEMINI_API_KEY in .env")), w)
    end.

Definition fetch_clean {W : Type} (E : world W) (url : str) : M W (str * str) :=
  page <- http_get E url ;;
  lift (extract page).

Definition make_model {W : Type} (E : world W) (name : str) : M W model :=
  _ <- load_key E ;;
  ret {| model_name := name; json_mode := accepts_config E name |}.

(** [str(z)] *)
Definition str_of_int (z : Z) : str :=
  of_string (NilEmpty.string_of_int (Z.to_int z)).

Definition prompt_text (text : str) (bullets max_words : Z) : str :=
  of_string "You are a precise, neutral summarizer. "
  ++ of_string "Return STRICT JSON only with keys: abstract, bullets." ++ [NL]
  ++ qq "Format: {'abstract':'<= " ++ str_of_int max_words
  ++ qq " words','bullets':['up to " ++ str_of_int bullets
  ++ qq " key points']}" ++ [NL; NL]
  ++ of_string "CONTENT:" ++ [NL] ++ slice_to text 16000.

(** The text payload of a response. *)
Definition response_text (resp : response) : str :=
  let out :=
    match resp_text resp with
    | Some t => Some t
    | None =>
        match resp_candidates resp with
        | cand :: _ =>
            Some (List.concat (map (fun p => match p with Some t => t | None => [] end) cand))
        | [] => None
        end
    end in
  match out with
  | Some t => t
  | None => []
  end.

Definition summarize_block {W : Type} (E : world W) (m : model) (text : str)
    (bullets max_words : Z) : M W json :=
  let p := {| role := of_string "user";
              parts := [prompt_text text bullets max_words] |} in
  resp <- generate_content E m p ;;
  lift (parse_json (loads E) (response_text resp)).

(** ** summarize_url *)

(** [s.get(key, default)] on whatever [parse_json] returned: only a dict
    has the method. *)
Definition get_item (v : json) (key : string) (default : json) : result json :=
  match v with
  | JDict d => Ok (dict_get d (of_string key) default)
  | _ => Raise AttributeError
  end.

Fixpoint mapR {A B : Type} (f : A -> result B) (l : list A) : result (list B) :=
  match l with
  | [] => Ok []
  | a :: l' =>
      match f a with
      | Raise e => Raise e
      | Ok b => match mapR f l' with
                | Raise e => Raise e
                | Ok bs => Ok (b :: bs)
                end
      end
  end.

(** An item of [" ".join(...)] must be a [str]. *)
Definition as_str (v : json) : result str :=
  match v with
  | JStr s => Ok s
  | _ => Raise TypeError
  end.

(** [" ".join(s.get("abstract","") for s in sect)[:20000]] *)
Definition merge_abstracts (sect : list json) : result str :=
  match mapR (fun s => get_item s "abstract" (JStr [])) sect with
  | Raise e => Raise e
  | Ok items =>
      match mapR as_str items with
      | Raise e => Raise e
      | Ok strs => Ok (slice_to (join [SP] strs) 20000)
      end
  end.

(** [sum((s.get("bullets",[]) for s in sect), [])]: a running [acc + item],
    which needs [item] to be a list. *)
Fixpoint sum_bullets (sect : list json) (acc : list json) : result (list json) :=
  match sect with
  | [] => Ok acc
  | s :: rest =>
      match get_item s "bullets" (JList []) with
      | Raise e => Raise e
      | Ok (JList l) => sum_bullets rest (acc ++ l)
      | Ok _ => Raise TypeError
      end
  end.

Definition merge_bullets (sect : list json) (bullets : Z) : result (list json) :=
  match sum_bullets sect [] with
  | Raise e => Raise e
  | Ok l => Ok (slice_to l bullets)
  end.

(** The last four statements of [summarize_url], on the final block's
    result. *)
Definition finish (final : json) (merged_abs : str) (merged_bul : list json)
    (title url : str) (max_words : Z) : result dict :=
  match final with
  | JDict d =>
      let d1 := dict_setdefault d (of_string "abstract")
                  (JStr (slice_to merged_abs (max_words * 8))) in
      let b := dict_get d1 (of_string "bullets") (JList []) in
      let d2 := dict_set d1 (of_string "bullets")
                  (if truthy b then b else JList merged_bul) in
      let d3 := dict_set d2 (of_string "title") (JStr title) in
      Ok (dict_set d3 (of_string "url") (JStr url))
  | _ => Raise AttributeError
  end.

(** A generator run to its end; [None] would be a loop that never ends. *)
Definition exhaust {W A : Type} (g : option (list A)) : M W (list A) :=
  match g with
  | Some l => ret l
  | None => raise (OtherError (of_string "nontermination"))
  end.

Definition summarize_url {W : Type} (E : world W) (url name : str)
    (bullets max_words : Z) : M W dict :=
  '(title, text) <- fetch_clean E url ;;
  m <- make_model E name ;;
  cs <- exhaust (chunks text 12000 400) ;;
  sect <- mapM (fun c => summarize_block E m c (Z.min 7 bullets) (Z.min 220 max_words)) cs ;;
  merged_abs <- lift (merge_abstracts sect) ;;
  merged_bul <- lift (merge_bullets sect bullets) ;;
  final <- summarize_block E m merged_abs bullets max_words ;;
  lift (finish final merged_abs merged_bul title url max_words).

(** ** Scripted worlds, for running the pipeline

    The world state counts the model calls made so far; the page is fixed
    and the model answers with the texts of a script, in order. *)

Definition scripted (page : soup) (replies : list str) : world nat :=
  {| getenv_key := fun _ => Some (of_string "key");
     http_get := fun _ w => (Ok page, w);
     accepts_config := fun _ => true;
     generate_content := fun _ _ w =>
       (Ok {| resp_text := Some (nth w replies []); resp_candidates := [] |}, S w);
     loads := json_loads |}.

Definition paragraph (s : string) : node :=
  Tag (of_string "p") [NavString true (of_string s)].

Definition page_one : soup :=
  [Tag (of_string "html")
     [Tag (of_string "head") [Tag (of_string "title") [NavString true (of_string " Example ")]];
      Tag (of_string "body")
        [Tag (of_string "nav") [Tag (of_string "p") [NavString true (of_string "Home About Contact Us")]];
         paragraph "alpha beta gamma";
         paragraph "two words";
         Tag (of_string "script") [NavString false (of_string "var x = 1;")]]]].

(** A page with navigation and script content only. *)
Definition page_nav_only : soup :=
  [Tag (of_string "html")
     [Tag (of_string "body")
        [Tag (of_string "nav") [Tag (of_string "p") [NavString true (of_string "Home About Contact Us")]];
         Tag (of_string "script") [NavString false (of_string "var x = 1;")]]]].

(** ** Vocabulary of the statements *)

(** The sign of a float, where it has one. *)
Definition has_sign (s : bool) (f : float) : Prop :=
  match f with
  | S754_zero s' | S754_infinity s' | S754_finite s' _ _ => s' = s
  | S754_nan => True
  end.

(** [seg] is the part of [s] that starts at offset [i]. *)
Definition substring_at (s : str) (i : Z) (seg : str) : Prop :=
  0 <= i /\ i + len seg <= len s /\ seg = slice s i (i + len seg).

(** Consecutive spans leave no gap: each one starts after the start of
    the one before it, and no later than where that one ends. *)
Fixpoint linked (sp : list (Z * str)) : Prop :=
  match sp with
  | (i1, seg1) :: rest =>
      match rest with
      | (i2, _) :: _ => i1 < i2 <= i1 + len seg1 /\ linked rest
      | [] => True
      end
  | [] => True
  end.

(** The end offset of the last span. *)
Definition last_end (sp : list (Z * str)) : Z :=
  let '(i, seg) := last sp (0, []) in i + len seg.

(** Position [p] of the input lies in one of the spans. *)
Definition covered (sp : list (Z * str)) (p : Z) : Prop :=
  exists i seg, In (i, seg) sp /\ i <= p < i + len seg.

(** What holds of every span the loop records. *)
Definition good_span (s : str) (n : Z) (x : Z * str) : Prop :=
  substring_at s (fst x) (snd x) /\ 1 <= len (snd x) <= n.

(** Position [j] holds the last line break of [w]. *)
Definition last_newline (w : str) (j : nat) : Prop :=
  nth_error w j = Some NL /\ forall k, (j < k)%nat -> nth_error w k <> Some NL.

(** The largest integer not above a non-negative finite float. *)
Definition float_floor (f : float) : option Z :=
  match f with
  | S754_zero _ => Some 0
  | S754_finite false m e =>
      Some (if 0 <=? e then Z.pos m * 2 ^ e else Z.pos m / 2 ^ (- e))
  | _ => None
  end.

(** [n*0.6] rounds to a float whose integer part is that of [3n/5]. *)
Definition floor_agrees (n : Z) : bool :=
  match float_floor (int_mul_float n f0_6) with
  | Some q => q =? 3 * n / 5
  | None => false
  end.

(** The [k] integers from [a] on. *)
Fixpoint range (k : nat) (a : Z) : list Z :=
  match k with
  | O => []
  | S k' => a :: range k' (a + 1)
  end.

(** The repair cascade as the code runs it: the fenced block, when there
    is one, is the only span that is tried. *)
Definition cascade_as_coded (loads : str -> option json) (s : str) : json :=
  match loads s with
  | Some v => v
  | None =>
      match re_search fenced_re s with
      | Some g => match loads g with
                  | Some v => v
                  | None => fallback s
                  end
      | None =>
          match re_search braced_re s with
          | Some g => match loads g with
                      | Some v => v
                      | None => fallback s
                      end
          | None => fallback s
          end
      end
  end.

(** The repair cascade as the specification words it: each stage is tried
    when the one before it failed, whether by finding nothing or by finding
    something that does not parse. *)
Definition cascade_as_specified (loads : str -> option json) (s : str) : json :=
  match loads s with
  | Some v => v
  | None =>
      match option_map loads (re_search fenced_re s) with
      | Some (Some v) => v
      | _ =>
          match option_map loads (re_search braced_re s) with
          | Some (Some v) => v
          | _ => fallback s
          end
      end
  end.

(** A word: at least one character, none of them white space. *)
Definition word (w : str) : Prop :=
  w <> [] /\ forallb (fun c => negb (is_space c)) w = true.

(** The string has a character that is not white space. *)
Definition has_visible (s : str) : bool :=
  existsb (fun c => negb (is_space c)) s.

(** What a pattern matches: [u] is matched by [re] from position [i], with
    group bounds [g] before and [c] after.  A star takes any run of its
    class; which run the search takes is a matter of [match_here]. *)
Fixpoint matches (re : regex) (u : str) (g : capture) (i : nat) (c : capture)
  : Prop :=
  match re with
  | [] => u = [] /\ c = g
  | Lit x :: re' => exists u', u = x :: u' /\ matches re' u' g (S i) c
  | Star _ p :: re' =>
      exists run u', u = run ++ u' /\ forallb p run = true /\
                     matches re' u' g (i + List.length run)%nat c
  | GroupOpen :: re' => matches re' u (i, snd g) i c
  | GroupClose :: re' => matches re' u (fst g, i) i c
  end.

(** The span from the first opening brace to the last closing brace after
    it, if there is one. *)
Fixpoint brace_span (s : str) : option str :=
  match s with
  | [] => None
  | x :: r =>
      if (x =? chr "{")%N
      then if 0 <=? rfind (chr "}") r
           then Some (x :: firstn (Z.to_nat (rfind (chr "}") r + 1)) r)
           else None
      else brace_span r
  end.

(** ** Sample inputs *)

Definition sample_lines : str :=
  of_string "aaaa" ++ [NL] ++ of_string "bbbbbbb" ++ [NL] ++ of_string "cc".

(** A line break exactly at 60% of a window of 10. *)
Definition sample_boundary : str :=
  of_string "aaaaaa" ++ [NL] ++ of_string "bbbbbbbb".

(** A line break past 60% of a window of 10. *)
Definition sample_cut : str :=
  of_string "aaaaaaaa" ++ [NL] ++ of_string "bbbbbbbb".

(** Model output with the JSON inside a fenced block. *)
Definition sample_fenced : str :=
  qq "Some prose ```json {'abstract':'x','bullets':['a']} ``` trailing".

(** Model output whose JSON object quotes a fenced block that is not
    JSON. *)
Definition sample_fence_in_json : str :=
  qq "hi {'abstract':'```json {x} ```'}".

(** [k] copies of [s], one after the other. *)
Fixpoint times (k : nat) (s : str) : str :=
  match k with
  | O => []
  | S k' => s ++ times k' s
  end.

(** A page with one paragraph of 12001 characters: 4001 words. *)
Definition long_text : str := times 4000 (of_string "aa ") ++ of_string "a".

Definition page_long : soup :=
  [Tag (of_string "p") [NavString true long_text]].

(** The page of one paragraph, and a model that answers the chunk with a
    summary and the final call with an empty abstract. *)
Definition world_empty_final : world nat :=
  scripted page_one
    [qq "{'abstract':'part one','bullets':['p']}";
     qq "{'abstract':'','bullets':['q']}"].

(** The same page, and a model whose final answer has two bullets. *)
Definition world_two_bullets : world nat :=
  scripted page_one
    [qq "{'abstract':'part one','bullets':['p']}";
     qq "{'abstract':'all of it','bullets':['q','r']}"].

Definition sample_url : str := of_string "http://example.org/".
Definition sample_model : str := of_string "gemini-2.5-flash".

(** What the two runs return. *)
Definition summary_empty_abstract : dict :=
  [(of_string "abstract", JStr []);
   (of_string "bullets", JList [JStr (of_string "q")]);
   (of_string "title", JStr (of_string "Example"));
   (of_string "url", JStr sample_url)].

Definition summary_two_bullets : dict :=
  [(of_string "abstract", JStr (of_string "all of it"));
   (of_string "bullets", JList [JStr (of_string "q"); JStr (of_string "r")]);
   (of_string "title", JStr (of_string "Example"));
   (of_string "url", JStr sample_url)].

(** The first block's summary in both runs. *)
Definition section_one : json :=
  JDict [(of_string "abstract", JStr (of_string "part one"));
         (of_string "bullets", JList [JStr (of_string "p")])].

(** ** Instrumented worlds, the command line, and the vocabulary of the
    further properties *)

(** Consecutive spans: each offset is the one before it, advanced. *)
Fixpoint stepped (overlap : Z) (sp : list (Z * str)) : Prop :=
  match sp with
  | (i1, seg1) :: rest =>
      match rest with
      | (i2, _) :: _ => i2 = advance seg1 overlap i1 /\ stepped overlap rest
      | [] => True
      end
  | [] => True
  end.

(** [grafted l l']: the forest [l'] is [l] with one more subtree, rooted at
    a tag of a removed kind, put somewhere in it, at any depth. *)
Inductive grafted : list node -> list node -> Prop :=
| graft_here (pre post : list node) (name : str) (kids : list node) :
    name_in name removed_tags = true ->
    grafted (pre ++ post) (pre ++ Tag name kids :: post)
| graft_below (pre post : list node) (name : str) (kids kids' : list node) :
    grafted kids kids' ->
    grafted (pre ++ Tag name kids :: post) (pre ++ Tag name kids' :: post).

(** A page of one paragraph, and the same page with a navigation bar put
    into its body. *)
Definition page_plain : soup :=
  [Tag (of_string "body") [paragraph "alpha beta gamma"]].

Definition page_with_nav : soup :=
  [Tag (of_string "body")
     [Tag (of_string "nav") [paragraph "Home About Contact Us"];
      paragraph "alpha beta gamma"]].

(** The lines of the prompt that come before the content. *)
Definition prompt_header (bullets max_words : Z) : str :=
  prompt_text [] bullets max_words.

Definition no_key_msg : str := of_string "set GEMINI_API_KEY in .env".

(** [page_one] served to a process without a key. *)
Definition world_no_key : world nat :=
  {| getenv_key := fun _ => None;
     http_get := fun _ w => (Ok page_one, w);
     accepts_config := fun _ => true;
     generate_content := fun _ _ w =>
       (Ok {| resp_text := Some []; resp_candidates := [] |}, S w);
     loads := json_loads |}.

(** The four keys [finish] writes. *)
Definition own_key (k : str) : bool :=
  str_eqb (of_string "abstract") k || str_eqb (of_string "bullets") k
  || str_eqb (of_string "title") k || str_eqb (of_string "url") k.

(** The same world with a record of the model calls beside it: [tick]
    updates the record with the prompt of each call. *)
Definition instrumented {W X : Type} (tick : prompt -> X -> X) (E : world W)
  : world (W * X) :=
  {| getenv_key := fun s => getenv_key E (fst s);
     http_get := fun url s =>
       let '(r, w') := http_get E url (fst s) in (r, (w', snd s));
     accepts_config := accepts_config E;
     generate_content := fun m p s =>
       let '(r, w') := generate_content E m p (fst s) in (r, (w', tick p (snd s)));
     loads := loads E |}.

(** The record is the number of calls. *)
Definition counted {W : Type} (E : world W) : world (W * nat) :=
  instrumented (fun _ k => S k) E.


(** An outcome of an instrumented world, without the record. *)
Definition erase {W X A : Type} (x : result A * (W * X)) : result A * W :=
  (fst x, fst (snd x)).

(** The prompt of a call of [summarize_block]. *)
Definition block_prompt (text : str) (bullets max_words : Z) : prompt :=
  {| role := of_string "user"; parts := [prompt_text text bullets max_words] |}.

(** A JSON object, as against any other value. *)
Definition is_dict (v : json) : bool :=
  match v with
  | JDict _ => true
  | _ => false
  end.

(** [page_one], and a model that answers with a JSON list. *)
Definition world_list_reply : world nat :=
  scripted page_one [qq "['a point', 'another']"].




(** The bullets of one section, where it has a list of them. *)
Definition bullets_of (s : json) : list json :=
  match s with
  | JDict d =>
      match dict_get d (of_string "bullets") (JList []) with
      | JList l => l
      | _ => []
      end
  | _ => []
  end.

(** * Properties *)

(** ** Lists and slices *)

Lemma len_nonneg {A : Type} (s : list A) : 0 <= len s.
Proof. unfold len. lia. Qed.

Lemma len_nil {A : Type} : len (@nil A) = 0.
Proof. reflexivity. Qed.

Lemma len_cons {A : Type} (x : A) (s : list A) : len (x :: s) = len s + 1.
Proof. unfold len. simpl List.length. lia. Qed.

Lemma len_app {A : Type} (s t : list A) : len (s ++ t) = len s + len t.
Proof. unfold len. rewrite length_app. lia. Qed.

Lemma len_firstn {A : Type} (k : nat) (s : list A) :
  len (firstn k s) = Z.min (Z.of_nat k) (len s).
Proof. unfold len. rewrite length_firstn. lia. Qed.

Lemma len_skipn {A : Type} (k : nat) (s : list A) :
  len (skipn k s) = Z.max 0 (len s - Z.of_nat k).
Proof. unfold len. rewrite length_skipn. lia. Qed.

(** A slice with bounds in order inside the string. *)
Lemma slice_inside {A : Type} (s : list A) (a b : Z) :
  0 <= a -> a <= b -> b <= len s ->
  slice s a b = firstn (Z.to_nat (b - a)) (skipn (Z.to_nat a) s).
Proof.
  intros Ha Hab Hb. unfold slice, clamp_index.
  destruct (Z.ltb_spec a 0); [lia|].
  destruct (Z.ltb_spec b 0); [lia|].
  rewrite !Z.min_l by lia. reflexivity.
Qed.

(** A window [s[i:i+n]] that starts inside the string. *)
Lemma slice_window {A : Type} (s : list A) (i n : Z) :
  0 <= i -> i <= len s -> 0 <= n ->
  slice s i (i + n) = slice s i (i + Z.min n (len s - i)).
Proof.
  intros Hi Hl Hn. unfold slice, clamp_index.
  destruct (Z.ltb_spec i 0); [lia|].
  destruct (Z.ltb_spec (i + n) 0); [lia|].
  destruct (Z.ltb_spec (i + Z.min n (len s - i)) 0); [lia|].
  f_equal. lia.
Qed.

Lemma len_slice_window {A : Type} (s : list A) (i n : Z) :
  0 <= i -> i <= len s -> 0 <= n ->
  len (slice s i (i + n)) = Z.min n (len s - i).
Proof.
  intros Hi Hl Hn. unfold slice, clamp_index.
  destruct (Z.ltb_spec i 0); [lia|].
  destruct (Z.ltb_spec (i + n) 0); [lia|].
  rewrite len_firstn, len_skipn. lia.
Qed.

Lemma slice_to_firstn {A : Type} (s : list A) (j : Z) :
  0 <= j -> j <= len s -> slice_to s j = firstn (Z.to_nat j) s.
Proof.
  intros Hj Hl. unfold slice_to. rewrite slice_inside by lia.
  simpl. f_equal. lia.
Qed.

Lemma slice_whole {A : Type} (s : list A) (b : Z) :
  len s <= b -> slice s 0 b = s.
Proof.
  intros Hb. unfold slice, clamp_index. pose proof (len_nonneg s).
  destruct (Z.ltb_spec b 0); [lia|].
  destruct (Z.ltb_spec 0 0); [lia|].
  rewrite (Z.min_l 0 (len s)), (Z.min_r b (len s)) by lia.
  rewrite Z.sub_0_r. simpl skipn.
  unfold len. rewrite Nat2Z.id. apply firstn_all.
Qed.

Lemma firstn_firstn_le {A : Type} (j k : nat) (s : list A) :
  (j <= k)%nat -> firstn j (firstn k s) = firstn j s.
Proof. intros H. rewrite firstn_firstn. f_equal. lia. Qed.

(** Cutting the window [s[i:i+n]] at [j] gives the slice [s[i:i+j]]. *)
Lemma slice_to_window {A : Type} (s : list A) (i n j : Z) :
  0 <= i -> i <= len s -> 0 <= n -> 0 <= j -> j <= len (slice s i (i + n)) ->
  slice_to (slice s i (i + n)) j = slice s i (i + j).
Proof.
  intros Hi Hl Hn Hj Hjl.
  rewrite slice_to_firstn by lia.
  rewrite len_slice_window in Hjl by lia.
  rewrite slice_window by lia.
  rewrite !slice_inside by lia.
  rewrite firstn_firstn_le by lia. f_equal. lia.
Qed.

(** ** rfind *)

Lemma rfind_from_range (c : char) (s : str) (i last : Z) :
  rfind_from c s i last = last \/
  (i <= rfind_from c s i last < i + len s).
Proof.
  revert i last. induction s as [|x r IH]; intros i last; simpl.
  - now left.
  - rewrite len_cons. pose proof (len_nonneg r).
    destruct (IH (i + 1) (if (x =? c)%N then i else last)) as [H1|H1].
    + rewrite H1. destruct (x =? c)%N; [right; lia | now left].
    + right. lia.
Qed.

Lemma rfind_range (c : char) (s : str) :
  rfind c s = -1 \/ (0 <= rfind c s < len s).
Proof. unfold rfind. apply rfind_from_range. Qed.

Lemma rfind_from_absent (c : char) (s : str) (i last : Z) :
  ~ In c s -> rfind_from c s i last = last.
Proof.
  revert i last. induction s as [|x r IH]; intros i last Hn; simpl; [reflexivity|].
  destruct (N.eqb_spec x c) as [->|Hx].
  - exfalso. apply Hn. now left.
  - apply IH. intros H. apply Hn. now right.
Qed.

Lemma rfind_absent (c : char) (s : str) : ~ In c s -> rfind c s = -1.
Proof. apply rfind_from_absent. Qed.

Lemma rfind_from_keeps_last (c : char) (s : str) (i last : Z) :
  last < i -> rfind_from c s i last = last -> ~ In c s.
Proof.
  revert i last. induction s as [|x r IH]; intros i last Hl He; simpl in *; [tauto|].
  destruct (N.eqb_spec x c) as [->|Hx].
  - exfalso. destruct (rfind_from_range c r (i + 1) i) as [H|H]; lia.
  - intros [H|H]; [congruence|]. revert H. apply (IH (i + 1) last); [lia|assumption].
Qed.

(** [rfind_from] returns the position of the last occurrence: the character
    there is [c], and [c] does not occur after it. *)
Lemma rfind_from_last (c : char) (s : str) (i last : Z) :
  last < i -> i <= rfind_from c s i last ->
  nth_error s (Z.to_nat (rfind_from c s i last - i)) = Some c /\
  forall k, (Z.to_nat (rfind_from c s i last - i) < k)%nat -> nth_error s k <> Some c.
Proof.
  revert i last. induction s as [|x r IH]; intros i last Hl Hj; simpl in *; [lia|].
  set (last' := if (x =? c)%N then i else last) in *.
  assert (Hl' : last' < i + 1) by (subst last'; destruct (x =? c)%N; lia).
  destruct (rfind_from_range c r (i + 1) last') as [H|H].
  - (* the last occurrence is the head *)
    rewrite H in *. subst last'.
    destruct (N.eqb_spec x c) as [->|Hx]; [|lia].
    rewrite Z.sub_diag. simpl. split; [reflexivity|].
    intros k Hk. destruct k as [|k]; [lia|]. simpl.
    intros Hc. apply nth_error_In in Hc.
    revert Hc. apply (rfind_from_keeps_last c r (i + 1) i); [lia|assumption].
  - destruct (IH (i + 1) last' Hl' (proj1 H)) as [IH1 IH2].
    replace (Z.to_nat (rfind_from c r (i + 1) last' - i))
      with (S (Z.to_nat (rfind_from c r (i + 1) last' - (i + 1)))) by lia.
    simpl. split; [assumption|].
    intros k Hk. destruct k as [|k]; [lia|]. simpl. apply IH2. lia.
Qed.

Lemma rfind_last (c : char) (s : str) :
  0 <= rfind c s ->
  nth_error s (Z.to_nat (rfind c s)) = Some c /\
  forall k, (Z.to_nat (rfind c s) < k)%nat -> nth_error s k <> Some c.
Proof.
  intros H. unfold rfind in *.
  pose proof (rfind_from_last c s 0 (-1) ltac:(lia) H) as L.
  rewrite Z.sub_0_r in L. exact L.
Qed.

(** ** The threshold [j > n*0.6] *)

Lemma binary_round_aux_sign (s : bool) (m e : Z) (l : location) :
  has_sign s (binary_round_aux 53 1024 s m e l).
Proof.
  unfold binary_round_aux.
  destruct (shr_fexp 53 1024 m e l) as [mrs' e'].
  destruct (shr_fexp 53 1024 _ e' loc_Exact) as [mrs'' e''].
  destruct (shr_m mrs''); simpl; auto.
  destruct (e'' <=? 971); simpl; auto.
Qed.

Lemma float_of_int_sign (n : Z) : 0 <= n -> has_sign false (float_of_int n).
Proof.
  intros Hn. unfold float_of_int, binary_normalize.
  destruct n as [|p|p]; simpl; auto; [|lia].
  unfold binary_round. destruct (shl_align _ _ _) as [mz ez].
  apply binary_round_aux_sign.
Qed.

Lemma mul_f0_6_sign (x : float) : has_sign false x -> has_sign false (SFmul 53 1024 x f0_6).
Proof.
  destruct x as [s|s|  |s m e]; simpl; intros H; subst; simpl; auto.
  apply binary_round_aux_sign.
Qed.

Lemma int_gt_float_pos (j : Z) (f : float) :
  has_sign false f -> int_gt_float j f = true -> 0 < j.
Proof.
  destruct f as [s|s|  |s m e]; simpl; intros H Hg; subst; try discriminate.
  - lia.
  - destruct (0 <=? e).
    + apply Z.ltb_lt in Hg. pose proof (Z.pow_nonneg 2 e ltac:(lia)). nia.
    + apply Z.ltb_lt in Hg. pose proof (Z.pow_nonneg 2 (- e) ltac:(lia)). nia.
Qed.

(** For a non-negative [n], only a positive [j] passes the test. *)
Lemma threshold_pos (n j : Z) :
  0 <= n -> int_gt_float j (int_mul_float n f0_6) = true -> 0 < j.
Proof.
  intros Hn. apply int_gt_float_pos. unfold int_mul_float.
  apply mul_f0_6_sign, float_of_int_sign, Hn.
Qed.

(** ** One pass of the chunker *)

Lemma segment_spec (s : str) (n i : Z) :
  0 <= i < len s -> 1 <= n ->
  1 <= len (segment s n i) <= n /\ substring_at s i (segment s n i).
Proof.
  intros Hi Hn. unfold substring_at, segment.
  pose proof (len_slice_window s i n ltac:(lia) ltac:(lia) ltac:(lia)) as Hw.
  destruct (int_gt_float _ _) eqn:Hg.
  - apply threshold_pos in Hg; [|lia].
    destruct (rfind_range NL (slice s i (i + n))) as [Hr|Hr]; [lia|].
    rewrite slice_to_window by lia.
    rewrite len_slice_window by lia.
    rewrite Z.min_l by lia. repeat split; try lia.
  - rewrite Hw. repeat split; try lia.
    apply slice_window; lia.
Qed.

Lemma advance_range (s : str) (n overlap i : Z) :
  0 <= i < len s -> 1 <= n -> 0 <= overlap ->
  i < advance (segment s n i) overlap i <= i + len (segment s n i).
Proof.
  intros Hi Hn Ho. destruct (segment_spec s n i Hi Hn) as [Hl _].
  unfold advance. lia.
Qed.

(** ** The loop of the chunker *)

Lemma last_end_cons (x y : Z * str) (sp : list (Z * str)) :
  last_end (x :: y :: sp) = last_end (y :: sp).
Proof. reflexivity. Qed.

Section Loop.
Variables (s : str) (n overlap : Z).
Hypothesis Hn : 1 <= n.
Hypothesis Ho : 0 <= overlap.

(** With fuel for every remaining position the loop ends by its own
    condition, and its spans are linked substrings that run from [i] to
    the end of the input. *)
Lemma spans_loop_spec (fuel : nat) :
  forall i, 0 <= i -> len s - i <= Z.of_nat fuel ->
  exists sp,
    spans_loop fuel s n overlap i = Some sp /\
    chunks_loop fuel s n overlap i = Some (map snd sp) /\
    Forall (good_span s n) sp /\
    linked sp /\
    (i < len s -> (exists seg rest, sp = (i, seg) :: rest) /\ last_end sp = len s) /\
    (len s <= i -> sp = []).
Proof.
  induction fuel as [|fuel IH]; intros i Hi Hf.
  - exists []. simpl. destruct (Z.ltb_spec i (len s)); [lia|].
    repeat split; auto; lia.
  - simpl. destruct (Z.ltb_spec i (len s)) as [Hlt|Hge].
    + destruct (segment_spec s n i ltac:(lia) Hn) as [Hlen Hsub].
      pose proof (advance_range s n overlap i ltac:(lia) Hn Ho) as Hadv.
      set (seg := segment s n i) in *.
      set (i' := advance seg overlap i) in *.
      destruct (IH i' ltac:(lia) ltac:(lia)) as (sp & E1 & E2 & F & L & Hd & Hnil).
      exists ((i, seg) :: sp). rewrite E1, E2. simpl.
      split; [reflexivity|]. split; [reflexivity|].
      split; [constructor; [split; assumption|assumption]|].
      destruct (Z.lt_ge_cases i' (len s)) as [Hin|Hout].
      * destruct (Hd Hin) as [(seg' & rest & ->) Hend].
        split; [split; [lia|assumption]|].
        split; [|lia]. intros _. split; [eauto|].
        rewrite last_end_cons. exact Hend.
      * rewrite (Hnil Hout). split; [exact I|].
        split; [|lia]. intros _. split; [eauto|].
        unfold last_end. simpl. destruct Hsub as (_ & Hle & _). lia.
    + exists []. repeat split; auto; lia.
Qed.
End Loop.

(** Linked spans cover every position between the start of the first and
    the end of the last. *)
Lemma linked_covered (sp : list (Z * str)) :
  forall i seg rest, sp = (i, seg) :: rest -> linked sp ->
  forall p, i <= p < last_end sp -> covered sp p.
Proof.
  induction sp as [|x sp IH]; intros i seg rest E L p Hp; [discriminate|].
  injection E as -> ->.
  destruct rest as [|[i2 seg2] rest].
  - unfold last_end in Hp. simpl in Hp.
    exists i, seg. split; [now left|lia].
  - destruct L as [Hl L]. rewrite last_end_cons in Hp.
    destruct (Z.lt_ge_cases p (i + len seg)) as [Hin|Hout].
    + exists i, seg. split; [now left|lia].
    + destruct (IH i2 seg2 rest eq_refl L p ltac:(lia)) as (k & sg & Hk & Hr).
      exists k, sg. split; [now right|assumption].
Qed.

(** The run to exhaustion returns, and its chunks are the segments of the
    recorded spans, each a substring of the input at its offset. *)
Lemma chunk_spans_substrings (s : str) (n overlap : Z) :
  1 <= n -> 0 <= overlap ->
  exists sp,
    chunk_spans s n overlap = Some sp /\
    chunks s n overlap = Some (map snd sp) /\
    (forall i seg, In (i, seg) sp -> substring_at s i seg).
Proof.
  intros Hn Ho. unfold chunk_spans, chunks.
  pose proof (len_nonneg s) as Hs.
  destruct (Z.leb_spec (len s) n) as [Hshort|Hlong].
  - exists [(0, s)]. split; [reflexivity|]. split; [reflexivity|].
    intros i seg [H|[]]. injection H as <- <-.
    repeat split; try lia. symmetry. apply slice_whole. lia.
  - destruct (spans_loop_spec s n overlap Hn Ho (List.length s) 0 ltac:(lia)
                ltac:(unfold len; lia))
      as (sp & E1 & E2 & F & _).
    exists sp. split; [exact E1|]. split; [exact E2|].
    intros i seg Hin. rewrite Forall_forall in F. apply (F (i, seg) Hin).
Qed.

(** C1.  For every string and valid parameters ([n >= 1], [overlap >= 0])
    the chunker terminates with at least one chunk; the chunks are the
    segments of the recorded spans; every chunk is the contiguous substring
    of the input at its offset; the first starts at 0, each later one starts
    after the start and no later than the end of its predecessor, and the
    last one ends at the end of the input, so that every position of the
    input lies in some chunk. *)
Theorem chunks_cover (s : str) (n overlap : Z) :
  1 <= n -> 0 <= overlap ->
  exists sp,
    chunk_spans s n overlap = Some sp /\
    chunks s n overlap = Some (map snd sp) /\
    sp <> [] /\
    (forall i seg, In (i, seg) sp -> substring_at s i seg) /\
    (exists seg rest, sp = (0, seg) :: rest) /\
    linked sp /\
    last_end sp = len s /\
    (forall p, 0 <= p < len s -> covered sp p).
Proof.
  intros Hn Ho. unfold chunk_spans, chunks.
  pose proof (len_nonneg s) as Hs.
  destruct (Z.leb_spec (len s) n) as [Hshort|Hlong].
  - exists [(0, s)]. repeat split; try reflexivity; try lia.
    + discriminate.
    + destruct H as [H|[]]. injection H as <- <-. lia.
    + destruct H as [H|[]]. injection H as <- <-. lia.
    + destruct H as [H|[]]. injection H as <- <-.
      simpl. symmetry. apply slice_whole. lia.
    + eauto.
    + intros p Hp. exists 0, s. split; [now left|lia].
  - destruct (spans_loop_spec s n overlap Hn Ho (List.length s) 0 ltac:(lia)
                ltac:(unfold len; lia))
      as (sp & E1 & E2 & F & L & Hd & _).
    destruct (Hd ltac:(lia)) as [(seg & rest & E) Hend].
    exists sp. repeat split; try assumption.
    + rewrite E. discriminate.
    + rewrite Forall_forall in F. apply (F (i, seg0)) in H. apply H.
    + rewrite Forall_forall in F. apply (F (i, seg0)) in H. apply H.
    + rewrite Forall_forall in F. apply (F (i, seg0)) in H. apply H.
    + eauto.
    + intros p Hp. apply (linked_covered sp 0 seg rest E L). lia.
Qed.

Lemma chunks_cover_witness :
  exists sp,
    chunk_spans sample_lines 10 2 = Some sp /\
    chunks sample_lines 10 2 = Some (map snd sp) /\
    sp <> [] /\
    (forall i seg, In (i, seg) sp -> substring_at sample_lines i seg) /\
    (exists seg rest, sp = (0, seg) :: rest) /\
    linked sp /\
    last_end sp = len sample_lines /\
    (forall p, 0 <= p < len sample_lines -> covered sp p).
Proof. apply (chunks_cover sample_lines 10 2); lia. Defined.

(** C7.  Whatever [n] and [overlap] are, an input no longer than [n] is
    yielded whole, as the only chunk. *)
Theorem chunks_short_input (s : str) (n overlap : Z) :
  len s <= n -> chunks s n overlap = Some [s].
Proof.
  intros H. unfold chunks.
  destruct (Z.leb_spec (len s) n); [reflexivity|lia].
Qed.

Lemma chunks_short_input_witness :
  len (of_string "short text") <= 12000 /\
  chunks (of_string "short text") 12000 400 = Some [of_string "short text"].
Proof.
  split; [vm_compute; discriminate|].
  apply (chunks_short_input (of_string "short text") 12000 400).
  vm_compute; discriminate.
Defined.

(** ** The threshold in exact arithmetic *)

Lemma int_gt_float_floor (j q : Z) (f : float) :
  float_floor f = Some q -> int_gt_float j f = (q <? j).
Proof.
  destruct f as [s|s|  |[|] m e]; simpl; try discriminate; intros E; injection E as <-.
  - reflexivity.
  - destruct (Z.leb_spec 0 e) as [He|He]; [reflexivity|].
    assert (Hp : 0 < 2 ^ (- e)) by (apply Z.pow_pos_nonneg; lia).
    destruct (Z.ltb_spec (Z.pos m) (j * 2 ^ (- e))) as [H|H];
      destruct (Z.ltb_spec (Z.pos m / 2 ^ (- e)) j) as [H'|H']; try reflexivity; exfalso.
    + pose proof (Z.mul_div_le (Z.pos m) _ Hp). nia.
    + pose proof (Z.div_le_lower_bound (Z.pos m) _ j Hp ltac:(lia)). lia.
Qed.

Lemma in_range (k : nat) (a n : Z) : a <= n < a + Z.of_nat k -> In n (range k a).
Proof.
  revert a. induction k as [|k IH]; intros a H; simpl; [lia|].
  destruct (Z.eq_dec a n); [now left|right]. apply IH. lia.
Qed.

Lemma floor_agrees_range : forallb floor_agrees (range (Z.to_nat 65536) 0) = true.
Proof. vm_compute. reflexivity. Qed.

(** Up to 65535 (the program runs with 12000) the float test [j > n*0.6]
    is the exact test [5j > 3n]. *)
Lemma threshold_exact (n j : Z) :
  0 <= n <= 65535 -> int_gt_float j (int_mul_float n f0_6) = (3 * n <? 5 * j).
Proof.
  intros Hn.
  pose proof floor_agrees_range as H. rewrite forallb_forall in H.
  assert (Hin : In n (range (Z.to_nat 65536) 0)).
  { apply in_range. rewrite Z2Nat.id; lia. }
  specialize (H n Hin).
  unfold floor_agrees in H.
  destruct (float_floor _) as [q|] eqn:E; [|discriminate].
  rewrite (int_gt_float_floor j q _ E). apply Z.eqb_eq in H. subst q.
  destruct (Z.ltb_spec (3 * n / 5) j) as [H1|H1];
    destruct (Z.ltb_spec (3 * n) (5 * j)) as [H2|H2]; try reflexivity; exfalso.
  - pose proof (Z.div_le_lower_bound (3 * n) 5 j ltac:(lia) ltac:(lia)). lia.
  - pose proof (Z.mul_div_le (3 * n) 5 ltac:(lia)). lia.
Qed.

(** ** Where a segment is cut *)

Lemma rfind_present (c : char) (s : str) : In c s -> 0 <= rfind c s.
Proof.
  intros Hin. destruct (rfind_range c s) as [H|H]; [|lia].
  exfalso. revert Hin. apply (rfind_from_keeps_last c s 0 (-1)); [lia|exact H].
Qed.

Lemma last_newline_rfind (w : str) (j : nat) :
  last_newline w j -> rfind NL w = Z.of_nat j.
Proof.
  intros [Hj Hlast].
  pose proof (rfind_present NL w (nth_error_In _ _ Hj)) as Hr.
  destruct (rfind_last NL w Hr) as [Hn Hafter].
  destruct (Nat.lt_trichotomy (Z.to_nat (rfind NL w)) j) as [H|[H|H]].
  - exfalso. apply (Hafter j H Hj).
  - lia.
  - exfalso. apply (Hlast _ H Hn).
Qed.

(** Every recorded span holds the segment cut at its offset. *)
Lemma spans_loop_segments (s : str) (n overlap : Z) (fuel : nat) :
  forall i0 sp, spans_loop fuel s n overlap i0 = Some sp ->
  forall i seg, In (i, seg) sp -> seg = segment s n i /\ i < len s.
Proof.
  induction fuel as [|fuel IH]; intros i0 sp E i seg Hin; simpl in E;
    destruct (Z.ltb_spec i0 (len s)) as [Hlt|Hge]; try discriminate;
    try (injection E as <-; destruct Hin).
  destruct (spans_loop fuel s n overlap _) as [sp'|] eqn:E'; [|discriminate].
  simpl in E. injection E as <-. destruct Hin as [H|H].
  - injection H as <- <-. split; [reflexivity|assumption].
  - apply (IH _ _ E' _ _ H).
Qed.

(** C5, as the code has it.  In a run over an input longer than [n], each
    chunk is cut from its window [s[i:i+n]] like this: when the last line
    break of the window sits at a position [j] with [j > n*0.6] (strictly),
    the chunk is the window up to that line break; when no line break of the
    window passes that test, the chunk is the whole window.  For [n] up to
    65535 the test, made on floats, is exactly [5j > 3n]. *)
Theorem chunk_newline_cut (s : str) (n overlap : Z) (sp : list (Z * str)) :
  1 <= n -> n < len s -> chunk_spans s n overlap = Some sp ->
  forall i seg, In (i, seg) sp ->
    (forall j, last_newline (slice s i (i + n)) j ->
       int_gt_float (Z.of_nat j) (int_mul_float n f0_6) = true ->
       seg = firstn j (slice s i (i + n))) /\
    ((forall k, nth_error (slice s i (i + n)) k = Some NL ->
        int_gt_float (Z.of_nat k) (int_mul_float n f0_6) = false) ->
     seg = slice s i (i + n)) /\
    (n <= 65535 ->
     forall j, int_gt_float j (int_mul_float n f0_6) = (3 * n <? 5 * j)).
Proof.
  intros Hn Hlong E i seg Hin. unfold chunk_spans in E.
  destruct (Z.leb_spec (len s) n); [lia|].
  destruct (spans_loop_segments _ _ _ _ _ _ E _ _ Hin) as [-> _].
  unfold segment. set (w := slice s i (i + n)).
  split; [|split].
  - intros j Hj Hg. rewrite (last_newline_rfind w j Hj), Hg.
    rewrite slice_to_firstn; [now rewrite Nat2Z.id|lia|].
    destruct (rfind_range NL w); rewrite (last_newline_rfind w j Hj) in *; lia.
  - intros Hnone.
    destruct (int_gt_float _ _) eqn:Hg; [|reflexivity]. exfalso.
    pose proof (threshold_pos n _ ltac:(lia) Hg) as Hpos.
    destruct (rfind_last NL w ltac:(lia)) as [Hnl _].
    apply Hnone in Hnl. rewrite Z2Nat.id in Hnl by lia. congruence.
  - intros Hb j. apply threshold_exact. lia.
Qed.

Lemma chunk_newline_cut_witness :
  (forall j, last_newline (slice sample_cut 0 (0 + 10)) j ->
     int_gt_float (Z.of_nat j) (int_mul_float 10 f0_6) = true ->
     of_string "aaaaaaaa" = firstn j (slice sample_cut 0 (0 + 10))) /\
  ((forall k, nth_error (slice sample_cut 0 (0 + 10)) k = Some NL ->
      int_gt_float (Z.of_nat k) (int_mul_float 10 f0_6) = false) ->
   of_string "aaaaaaaa" = slice sample_cut 0 (0 + 10)) /\
  (10 <= 65535 ->
   forall j, int_gt_float j (int_mul_float 10 f0_6) = (3 * 10 <? 5 * j)).
Proof.
  apply (chunk_newline_cut sample_cut 10 2
           [(0, of_string "aaaaaaaa");
            (6, of_string "aa" ++ [NL] ++ of_string "bbbbbbb");
            (14, of_string "bbb"); (15, of_string "bb"); (16, of_string "b")]).
  - lia.
  - vm_compute. reflexivity.
  - vm_compute. reflexivity.
  - left. reflexivity.
Defined.

(** C5 as stated fails: a window of 10 whose last line break sits exactly
    at position 6 = 0.6 * 10 is yielded whole, not cut at the line break. *)
Lemma newline_at_boundary_not_cut :
  last_newline (slice sample_boundary 0 10) 6 /\
  3 * 10 <= 5 * 6 /\
  (exists rest,
     chunk_spans sample_boundary 10 2
     = Some ((0, slice sample_boundary 0 10) :: rest)) /\
  slice sample_boundary 0 10 <> firstn 6 (slice sample_boundary 0 10).
Proof.
  split; [|split; [lia|split]].
  - split; [reflexivity|]. intros k Hk.
    do 11 (destruct k as [|k]; [try lia; vm_compute; discriminate|]).
    vm_compute. discriminate.
  - eexists. vm_compute. reflexivity.
  - vm_compute. discriminate.
Qed.

(** ** The regular expression search *)

Section StarFacts.
Variable p : char -> bool.
Variable k : nat -> str -> option capture.
Variable P : str -> nat -> capture -> Prop.
Hypothesis k_sound :
  forall i s c, k i s = Some c -> exists u rest, s = u ++ rest /\ P u i c.

Ltac by_continuation H :=
  let u := fresh "u" in let rest := fresh "rest" in
  let Hs := fresh "Hs" in let Hu := fresh "Hu" in
  destruct (k_sound _ _ _ H) as (u & rest & Hs & Hu);
  exists [], u, rest; simpl; rewrite Nat.add_0_r; auto.

Lemma star_greedy_sound (s : str) :
  forall i c, star_greedy p k i s = Some c ->
  exists run u rest, s = run ++ u ++ rest /\ forallb p run = true /\
                     P u (i + List.length run)%nat c.
Proof.
  induction s as [|x r IH]; intros i c H; simpl in H; [by_continuation H|].
  destruct (p x) eqn:Hx; [|by_continuation H].
  destruct (star_greedy p k (S i) r) as [c'|] eqn:E; [|by_continuation H].
  injection H as ->.
  destruct (IH _ _ E) as (run & u & rest & -> & Hr & HP).
  exists (x :: run), u, rest. simpl. rewrite Hx, Hr.
  replace (i + S (List.length run))%nat with (S i + List.length run)%nat by lia.
  auto.
Qed.

Lemma star_lazy_sound (s : str) :
  forall i c, star_lazy p k i s = Some c ->
  exists run u rest, s = run ++ u ++ rest /\ forallb p run = true /\
                     P u (i + List.length run)%nat c.
Proof.
  induction s as [|x r IH]; intros i c H; simpl in H.
  - destruct (k i []) eqn:E; [|discriminate]. injection H as ->. by_continuation E.
  - destruct (k i (x :: r)) eqn:E; [injection H as ->; by_continuation E|].
    destruct (p x) eqn:Hx; [|discriminate].
    destruct (IH _ _ H) as (run & u & rest & -> & Hr & HP).
    exists (x :: run), u, rest. simpl. rewrite Hx, Hr.
    replace (i + S (List.length run))%nat with (S i + List.length run)%nat by lia.
    auto.
Qed.
End StarFacts.

(** A successful match consumed a prefix that the pattern matches. *)
Lemma match_here_sound (re : regex) :
  forall g i s c, match_here re g i s = Some c ->
  exists u rest, s = u ++ rest /\ matches re u g i c.
Proof.
  induction re as [|a re IH]; intros g i s c H; simpl in H.
  - injection H as <-. exists [], s. simpl. auto.
  - destruct a as [x|[|] p| |].
    + destruct s as [|y r]; [discriminate|].
      destruct (N.eqb_spec y x) as [->|]; [|discriminate].
      destruct (IH _ _ _ _ H) as (u & rest & -> & Hu).
      exists (x :: u), rest. simpl. eauto.
    + apply (star_greedy_sound p _ (fun u i c => matches re u g i c) (IH g)) in H.
      destruct H as (run & u & rest & -> & Hr & Hu).
      exists (run ++ u), rest. rewrite <- app_assoc. simpl. eauto 6.
    + apply (star_lazy_sound p _ (fun u i c => matches re u g i c) (IH g)) in H.
      destruct H as (run & u & rest & -> & Hr & Hu).
      exists (run ++ u), rest. rewrite <- app_assoc. simpl. eauto 6.
    + apply IH in H. exact H.
    + apply IH in H. exact H.
Qed.

Section StarComplete.
Variable p : char -> bool.
Variable k : nat -> str -> option capture.

Lemma star_greedy_complete (run : str) :
  forall i t, forallb p run = true ->
  k (i + List.length run)%nat t <> None ->
  star_greedy p k i (run ++ t) <> None.
Proof.
  induction run as [|x run IH]; intros i t Hr Hk; simpl in *.
  - rewrite Nat.add_0_r in Hk.
    destruct t as [|y t]; simpl; [exact Hk|].
    destruct (p y); [|exact Hk].
    destruct (star_greedy p k (S i) t); [discriminate|exact Hk].
  - apply andb_true_iff in Hr. destruct Hr as [Hx Hr]. rewrite Hx.
    replace (i + S (List.length run))%nat with (S i + List.length run)%nat in Hk by lia.
    specialize (IH (S i) t Hr Hk).
    destruct (star_greedy p k (S i) (run ++ t)); [discriminate|contradiction].
Qed.

Lemma star_lazy_complete (run : str) :
  forall i t, forallb p run = true ->
  k (i + List.length run)%nat t <> None ->
  star_lazy p k i (run ++ t) <> None.
Proof.
  induction run as [|x run IH]; intros i t Hr Hk; simpl in *.
  - rewrite Nat.add_0_r in Hk.
    destruct t as [|y t]; simpl; destruct (k i _); try discriminate; contradiction.
  - apply andb_true_iff in Hr. destruct Hr as [Hx Hr]. rewrite Hx.
    replace (i + S (List.length run))%nat with (S i + List.length run)%nat in Hk by lia.
    destruct (k i (x :: run ++ t)); [discriminate|].
    apply (IH (S i) t Hr Hk).
Qed.
End StarComplete.

(** Whatever the pattern matches, the backtracking search finds a match
    (this one or one it tries before it). *)
Lemma match_here_complete (re : regex) :
  forall u g i c rest g', matches re u g i c ->
  match_here re g' i (u ++ rest) <> None.
Proof.
  induction re as [|a re IH]; intros u g i c rest g' H; simpl in *.
  - discriminate.
  - destruct a as [x|b p| |].
    + destruct H as (u' & -> & H). simpl. rewrite N.eqb_refl. apply (IH _ _ _ _ _ _ H).
    + destruct H as (run & u' & -> & Hr & H). rewrite <- app_assoc.
      destruct b.
      * apply star_greedy_complete; [exact Hr|]. apply (IH _ _ _ _ _ _ H).
      * apply star_lazy_complete; [exact Hr|]. apply (IH _ _ _ _ _ _ H).
    + apply (IH _ _ _ _ _ _ H).
    + apply (IH _ _ _ _ _ _ H).
Qed.

(** The search returns the match at the leftmost position that has one. *)
Lemma search_from_sound (re : regex) (s : str) :
  forall i c, search_from re i s = Some c ->
  exists pre tail, s = pre ++ tail /\
    match_here re (0%nat, 0%nat) (i + List.length pre)%nat tail = Some c.
Proof.
  induction s as [|x r IH]; intros i c H; simpl in H.
  - destruct (match_here re (0%nat, 0%nat) i []) eqn:E; [|discriminate].
    injection H as ->. exists [], []. simpl. rewrite Nat.add_0_r. auto.
  - destruct (match_here re (0%nat, 0%nat) i (x :: r)) eqn:E.
    + injection H as ->. exists [], (x :: r). simpl. rewrite Nat.add_0_r. auto.
    + destruct (IH _ _ H) as (pre & tail & -> & Hm).
      exists (x :: pre), tail. simpl.
      replace (i + S (List.length pre))%nat with (S i + List.length pre)%nat by lia.
      auto.
Qed.

Lemma search_from_none (re : regex) (s : str) :
  forall i, search_from re i s = None ->
  forall pre tail, s = pre ++ tail ->
  match_here re (0%nat, 0%nat) (i + List.length pre)%nat tail = None.
Proof.
  induction s as [|x r IH]; intros i H pre tail E; simpl in H.
  - destruct pre; [|discriminate]. simpl in E. subst tail.
    simpl. rewrite Nat.add_0_r.
    destruct (match_here re (0%nat, 0%nat) i []); [discriminate|reflexivity].
  - destruct (match_here re (0%nat, 0%nat) i (x :: r)) eqn:M; [discriminate|].
    destruct pre as [|y pre]; simpl in E.
    + subst tail. simpl. now rewrite Nat.add_0_r.
    + injection E as <- ->. simpl.
      replace (i + S (List.length pre))%nat with (S i + List.length pre)%nat by lia.
      apply (IH _ H). reflexivity.
Qed.

Lemma skipn_app_length {A : Type} (a b : list A) : skipn (List.length a) (a ++ b) = b.
Proof. induction a; simpl; auto. Qed.

Lemma firstn_app_length {A : Type} (a b : list A) : firstn (List.length a) (a ++ b) = a.
Proof. induction a; simpl; f_equal; auto. Qed.

(** Group 1 of a match, read back from the subject. *)
Lemma group_between {A : Type} (pre g post : list A) (a b : nat) :
  a = List.length pre -> b = (a + List.length g)%nat ->
  firstn (b - a) (skipn a (pre ++ g ++ post)) = g.
Proof.
  intros -> ->. rewrite skipn_app_length.
  replace (List.length pre + List.length g - List.length pre)%nat
    with (List.length g) by lia.
  apply firstn_app_length.
Qed.

(** A fenced match: a fence, white space, braces around anything, white
    space, a fence; group 1 is the braces with what they hold. *)
Lemma fenced_found (s g : str) :
  re_search fenced_re s = Some g ->
  exists pre ws1 mid ws2 rest,
    s = pre ++ of_string "```json" ++ ws1 ++ g ++ ws2 ++ of_string "```" ++ rest /\
    g = chr "{" :: mid ++ [chr "}"] /\
    forallb is_space ws1 = true /\ forallb is_space ws2 = true.
Proof.
  unfold re_search. destruct (search_from fenced_re 0 s) as [[a b]|] eqn:E; [|discriminate].
  intros H. injection H as <-.
  destruct (search_from_sound _ _ _ _ E) as (pre & tail & -> & Hm).
  destruct (match_here_sound _ _ _ _ _ Hm) as (u & rest & -> & Hu).
  clear E Hm.
  assert (Hshape : exists ws1 mid ws2,
            u = (of_string "```json" ++ ws1) ++ (chr "{" :: mid ++ [chr "}"])
                ++ ws2 ++ of_string "```" /\
            forallb is_space ws1 = true /\ forallb is_space ws2 = true /\
            a = List.length (pre ++ of_string "```json" ++ ws1) /\
            b = (a + List.length (chr "{" :: mid ++ [chr "}"]))%nat).
  { simpl in Hu.
    destruct Hu as (u1 & -> & u2 & -> & u3 & -> & u4 & -> & u5 & -> & u6 & -> & u7 & -> & Hu).
    destruct Hu as (ws1 & u8 & -> & Hws1 & u9 & -> & mid & u10 & -> & _ & u11 & -> & Hu).
    destruct Hu as (ws2 & u12 & -> & Hws2 & u13 & -> & u14 & -> & u15 & -> & -> & Hc).
    injection Hc as -> ->.
    exists ws1, mid, ws2. split; [simpl; now rewrite <- !app_assoc|].
    split; [assumption|]. split; [assumption|].
    rewrite !length_app. simpl. rewrite !length_app. simpl. lia. }
  destruct Hshape as (ws1 & mid & ws2 & -> & Hws1 & Hws2 & Ha & Hb).
  exists pre, ws1, mid, ws2, rest.
  set (g := chr "{" :: mid ++ [chr "}"]) in *.
  assert (G : firstn (b - a)
                (skipn a ((pre ++ of_string "```json" ++ ws1)
                          ++ g ++ ((ws2 ++ of_string "```") ++ rest))) = g)
    by (apply group_between; assumption).
  repeat rewrite <- app_assoc in G. repeat rewrite <- app_assoc.
  rewrite G. repeat split; try assumption.
Qed.

(** Without a fenced match the subject holds no fenced block. *)
Lemma fenced_not_found (s : str) :
  re_search fenced_re s = None ->
  forall pre ws1 mid ws2 rest,
    forallb is_space ws1 = true -> forallb is_space ws2 = true ->
    s <> pre ++ of_string "```json" ++ ws1 ++ (chr "{" :: mid ++ [chr "}"])
             ++ ws2 ++ of_string "```" ++ rest.
Proof.
  unfold re_search. destruct (search_from fenced_re 0 s) as [[a b]|] eqn:E; [discriminate|].
  intros _ pre ws1 mid ws2 rest H1 H2 ->.
  pose proof (search_from_none _ _ _ E pre _ eq_refl) as Hn.
  revert Hn.
  replace (of_string "```json" ++ ws1 ++ (chr "{" :: mid ++ [chr "}"])
             ++ ws2 ++ of_string "```" ++ rest)
    with ((of_string "```json" ++ ws1 ++ (chr "{" :: mid ++ [chr "}"])
             ++ ws2 ++ of_string "```") ++ rest)
    by (repeat rewrite <- app_assoc; reflexivity).
  eapply (match_here_complete _ _ (0%nat, 0%nat)). simpl.
  do 7 (eexists; split; [reflexivity|]).
  exists ws1. eexists. split; [reflexivity|]. split; [assumption|].
  eexists. split; [reflexivity|].
  exists mid. eexists. split; [rewrite <- app_assoc; reflexivity|]. split; [apply forallb_forall; reflexivity|].
  eexists. split; [reflexivity|].
  exists ws2. eexists. split; [reflexivity|]. split; [assumption|].
  do 3 (eexists; split; [reflexivity|]).
  split; reflexivity.
Qed.

Lemma rfind_from_shift (c : char) (s : str) :
  forall i last,
  rfind_from c s i last = if 0 <=? rfind c s then i + rfind c s else last.
Proof.
  unfold rfind. induction s as [|x r IH]; intros i last; simpl; [reflexivity|].
  rewrite (IH (i + 1)), (IH 1).
  destruct (0 <=? rfind_from c r 0 (-1)) eqn:E.
  - apply Z.leb_le in E.
    destruct (Z.leb_spec 0 (1 + rfind_from c r 0 (-1))); lia.
  - destruct (x =? c)%N; simpl; [lia|reflexivity].
Qed.

Lemma rfind_cons (c x : char) (r : str) :
  rfind c (x :: r)
  = if 0 <=? rfind c r then rfind c r + 1
    else if (x =? c)%N then 0 else -1.
Proof.
  unfold rfind at 1. simpl. rewrite rfind_from_shift.
  destruct (0 <=? rfind c r); [lia|reflexivity].
Qed.

(** After the opening brace, the greedy star runs to the last closing
    brace.  [k] is what follows the star: a closing brace, then the end of
    the group. *)
Lemma greedy_to_last_brace (i0 : nat) (k : nat -> str -> option capture) :
  (forall j t, k j t = match t with
                       | [] => None
                       | y :: _ => if (y =? 125)%N then Some (i0, S j) else None
                       end) ->
  forall r j,
  star_greedy any_char k j r
  = if 0 <=? rfind 125%N r
    then Some (i0, (j + Z.to_nat (rfind 125%N r + 1))%nat)
    else None.
Proof.
  intros Hk. induction r as [|x r IH]; intros j; simpl star_greedy.
  - now rewrite Hk.
  - rewrite IH, rfind_cons, Hk.
    destruct (Z.leb_spec 0 (rfind 125%N r)) as [H|H].
    + destruct (Z.leb_spec 0 (rfind 125%N r + 1)); [|lia].
      f_equal. f_equal. lia.
    + simpl. destruct (x =? 125)%N; [|reflexivity].
      simpl. f_equal. f_equal. lia.
Qed.

Lemma brace_span_no_close (s : str) : ~ In (chr "}") s -> brace_span s = None.
Proof.
  induction s as [|x r IH]; intros H; [reflexivity|]. simpl.
  assert (Hr : ~ In (chr "}") r) by (intros Hin; apply H; now right).
  destruct (x =? 123)%N; [|apply IH, Hr].
  now rewrite (rfind_absent 125%N r Hr).
Qed.

Lemma search_braced (s : str) :
  forall i,
  match search_from braced_re i s with
  | Some (a, b) =>
      exists k, a = (i + k)%nat /\ brace_span s = Some (firstn (b - a) (skipn k s))
  | None => brace_span s = None
  end.
Proof.
  induction s as [|x r IH]; intros i; [reflexivity|].
  simpl search_from. simpl match_here. simpl brace_span.
  destruct (x =? 123)%N eqn:Hx.
  - rewrite (greedy_to_last_brace i _ (fun _ _ => eq_refl)).
    destruct (Z.leb_spec 0 (rfind 125%N r)) as [H|H]; cbv iota beta.
    + exists 0%nat. split; [lia|].
      replace (S i + Z.to_nat (rfind 125%N r + 1) - i)%nat
        with (S (Z.to_nat (rfind 125%N r + 1))) by lia.
      reflexivity.
    + assert (Hr : ~ In 125%N r).
      { intros Hin. apply rfind_present in Hin. lia. }
      specialize (IH (S i)). rewrite (brace_span_no_close r Hr) in IH.
      destruct (search_from braced_re (S i) r) as [[a b]|]; [|reflexivity].
      destruct IH as (k & _ & Hk). discriminate.
  - specialize (IH (S i)).
    destruct (search_from braced_re (S i) r) as [[a b]|]; [|exact IH].
    destruct IH as (k & -> & Hk). exists (S k). split; [lia|exact Hk].
Qed.

(** The braces pattern finds the span from the first opening brace to the
    last closing brace. *)
Lemma re_search_braced (s : str) : re_search braced_re s = brace_span s.
Proof.
  unfold re_search. pose proof (search_braced s 0%nat) as H.
  destruct (search_from braced_re 0 s) as [[a b]|]; [|now rewrite H].
  destruct H as (k & -> & ->). reflexivity.
Qed.

Lemma firstn_snoc_nth {A : Type} (s : list A) (j : nat) (c : A) :
  nth_error s j = Some c -> firstn (S j) s = firstn j s ++ [c].
Proof.
  revert j. induction s as [|x s IH]; intros [|j] H; simpl in *; try discriminate.
  - now injection H as ->.
  - f_equal. apply IH, H.
Qed.

Lemma in_skipn_nth {A : Type} (s : list A) (j : nat) (c : A) :
  In c (skipn j s) -> exists k, (j <= k)%nat /\ nth_error s k = Some c.
Proof.
  revert j. induction s as [|x s IH]; intros [|j] H; simpl in *; try tauto.
  - apply (In_nth_error (x :: s)) in H. destruct H as [k Hk].
    exists k. split; [lia|exact Hk].
  - destruct (IH j H) as (k & Hk & Hn). exists (S k). split; [lia|exact Hn].
Qed.

(** The braces span, said without the search: it starts at the first
    opening brace of the subject, ends at its last closing brace, and
    nothing but these two bounds it. *)
Lemma brace_span_spec (s g : str) :
  brace_span s = Some g ->
  exists pre mid rest,
    s = pre ++ g ++ rest /\ g = chr "{" :: mid ++ [chr "}"] /\
    ~ In (chr "{") pre /\ ~ In (chr "}") rest.
Proof.
  revert g. induction s as [|x r IH]; intros g H; simpl in H; [discriminate|].
  destruct (N.eqb_spec x 123) as [->|Hx].
  - destruct (Z.leb_spec 0 (rfind 125%N r)) as [Hr|Hr]; [|discriminate].
    injection H as <-.
    destruct (rfind_last 125%N r Hr) as [Hn Hafter].
    set (j := Z.to_nat (rfind 125%N r)) in *.
    replace (Z.to_nat (rfind 125%N r + 1)) with (S j) by lia.
    exists [], (firstn j r), (skipn (S j) r).
    rewrite (firstn_snoc_nth r j _ Hn).
    split; [|split; [reflexivity|split; [intros []|]]].
    + rewrite <- (firstn_snoc_nth r j _ Hn).
      change ([] ++ (123%N :: firstn (S j) r) ++ skipn (S j) r)
        with (123%N :: (firstn (S j) r ++ skipn (S j) r)).
      now rewrite firstn_skipn.
    + intros Hin. apply in_skipn_nth in Hin. destruct Hin as (k & Hk & Hc).
      apply (Hafter k); [lia|exact Hc].
  - destruct (IH g H) as (pre & mid & rest & -> & Hg & Hpre & Hrest).
    exists (x :: pre), mid, rest. simpl.
    split; [reflexivity|]. split; [exact Hg|]. split; [|exact Hrest].
    intros [E|Hin]; [|tauto]. apply Hx. now rewrite E.
Qed.

(** ** strip *)

Lemma lstrip_spec (s : str) :
  exists l, s = l ++ lstrip s /\ forallb is_space l = true /\
            match lstrip s with [] => True | x :: _ => is_space x = false end.
Proof.
  induction s as [|x s (l & E & Hl & Hh)]; [exists []; simpl; auto|]. simpl.
  destruct (is_space x) eqn:Hx.
  - exists (x :: l). simpl. rewrite Hx, Hl. split; [now f_equal|auto].
  - exists []. simpl. auto.
Qed.

Lemma rstrip_spec (s : str) :
  exists r, s = rstrip s ++ r /\ forallb is_space r = true /\
            match rev (rstrip s) with [] => True | x :: _ => is_space x = false end /\
            match s, rstrip s with
            | x :: _, [] => is_space x = true
            | x :: _, y :: _ => y = x
            | [], _ => True
            end.
Proof.
  induction s as [|x s (r & E & Hr & Hl & Hh)]; [exists []; simpl; auto|]. simpl.
  destruct (rstrip s) as [|y t] eqn:Et.
  - destruct (is_space x) eqn:Hx.
    + exists (x :: s). simpl. simpl in E. subst r. rewrite Hx, Hr. auto.
    + exists r. simpl in *. rewrite Hx. subst r. auto.
  - exists r. split; [simpl; now f_equal|]. split; [exact Hr|]. split; [|reflexivity].
    change (rev (x :: y :: t)) with (rev (y :: t) ++ [x]).
    destruct (rev (y :: t)) eqn:Er; [|exact Hl].
    apply (f_equal (@List.length _)) in Er. rewrite length_rev in Er. discriminate.
Qed.

(** [strip] removes white space at both ends and nothing else: what is
    left, if anything, starts and ends with a character that is not white
    space. *)
Lemma strip_spec (s : str) :
  exists l r,
    s = l ++ strip s ++ r /\
    forallb is_space l = true /\ forallb is_space r = true /\
    match strip s with [] => True | x :: _ => is_space x = false end /\
    match rev (strip s) with [] => True | x :: _ => is_space x = false end.
Proof.
  unfold strip.
  destruct (lstrip_spec s) as (l & El & Hl & Hh).
  destruct (rstrip_spec (lstrip s)) as (r & Er & Hr & Hlast & Hhead).
  exists l, r. split; [now rewrite <- Er|]. split; [exact Hl|]. split; [exact Hr|].
  split; [|exact Hlast].
  destruct (lstrip s) as [|x t]; [reflexivity|].
  destruct (rstrip (x :: t)) as [|y t']; [exact I|]. now subst y.
Qed.

(** ** parse_json *)

(** C4, as the code has it.  [parse_json] returns the full payload's value
    when it parses; otherwise it picks one span, the contents of the fenced
    block when there is one and else the outermost braces, and returns that
    span's value when it parses; in every other case it returns the
    fallback.  A fenced block that does not parse is not followed by a try
    of the braces.  The fenced span is a brace-delimited text between a
    [```json] fence and a closing fence, white space allowed inside the
    fences; the braces span runs from the first opening brace to the last
    closing brace. *)
Theorem parse_json_cascade (loads : str -> option json) (s : str) :
  parse_json loads s = Ok (cascade_as_coded loads s) /\
  re_search braced_re s = brace_span s /\
  (forall g, re_search fenced_re s = Some g ->
     exists pre ws1 mid ws2 rest,
       s = pre ++ of_string "```json" ++ ws1 ++ g ++ ws2 ++ of_string "```" ++ rest /\
       g = chr "{" :: mid ++ [chr "}"] /\
       forallb is_space ws1 = true /\ forallb is_space ws2 = true).
Proof.
  split; [|split; [apply re_search_braced|apply fenced_found]].
  unfold parse_json, cascade_as_coded, call_loads, or_else.
  destruct (loads s) as [v|]; simpl; [reflexivity|].
  destruct (re_search fenced_re s) as [g|].
  - destruct (loads g); reflexivity.
  - destruct (re_search braced_re s) as [g|]; [|reflexivity].
    destruct (loads g); reflexivity.
Qed.

Lemma parse_json_cascade_witness :
  exists pre ws1 mid ws2 rest,
    sample_fenced
    = pre ++ of_string "```json" ++ ws1 ++ qq "{'abstract':'x','bullets':['a']}"
          ++ ws2 ++ of_string "```" ++ rest /\
    qq "{'abstract':'x','bullets':['a']}" = chr "{" :: mid ++ [chr "}"] /\
    forallb is_space ws1 = true /\ forallb is_space ws2 = true.
Proof.
  apply (proj2 (proj2 (parse_json_cascade json_loads sample_fenced))).
  vm_compute. reflexivity.
Defined.

(** C4 as stated fails: the payload does not parse, its fenced block does
    not parse either, its outermost braces do, and the result is the
    fallback rather than the value of the braces. *)
Lemma fenced_failure_skips_braces :
  json_loads sample_fence_in_json = None /\
  re_search fenced_re sample_fence_in_json = Some (of_string "{x}") /\
  json_loads (of_string "{x}") = None /\
  (exists g v, re_search braced_re sample_fence_in_json = Some g /\
               json_loads g = Some v /\
               cascade_as_specified json_loads sample_fence_in_json = v /\
               parse_json json_loads sample_fence_in_json <> Ok v) /\
  parse_json json_loads sample_fence_in_json = Ok (fallback sample_fence_in_json).
Proof.
  split; [vm_compute; reflexivity|].
  split; [vm_compute; reflexivity|].
  split; [vm_compute; reflexivity|].
  split; [|vm_compute; reflexivity].
  exists (qq "{'abstract':'```json {x} ```'}").
  exists (JDict [(of_string "abstract", JStr (of_string "```json {x} ```"))]).
  split; [vm_compute; reflexivity|].
  split; [vm_compute; reflexivity|].
  split; [vm_compute; reflexivity|].
  vm_compute. discriminate.
Qed.

(** The example of the specification: JSON inside a fenced block, with
    prose around it. *)
Lemma parse_json_fenced_example :
  parse_json json_loads sample_fenced
  = Ok (JDict [(of_string "abstract", JStr (of_string "x"));
               (of_string "bullets", JList [JStr (of_string "a")])]).
Proof. vm_compute. reflexivity. Qed.

(** C6.  [parse_json] returns for every input, whatever the decoder does;
    when neither the payload nor the span the patterns find (if any) can be
    decoded, the result is the dict with the stripped input as abstract and
    no bullets, the stripped input being the input less the white space at
    its two ends; "just plain text" is such an input. *)
Theorem parse_json_total_fallback (loads : str -> option json) (s : str) :
  (exists v, parse_json loads s = Ok v) /\
  (loads s = None /\
   (forall g, or_else (re_search fenced_re s) (re_search braced_re s) = Some g ->
              loads g = None) ->
   parse_json loads s
   = Ok (JDict [(of_string "abstract", JStr (strip s)); (of_string "bullets", JList [])])) /\
  (exists l r,
     s = l ++ strip s ++ r /\
     forallb is_space l = true /\ forallb is_space r = true /\
     match strip s with [] => True | x :: _ => is_space x = false end /\
     match rev (strip s) with [] => True | x :: _ => is_space x = false end) /\
  parse_json json_loads (of_string "just plain text")
  = Ok (JDict [(of_string "abstract", JStr (of_string "just plain text"));
               (of_string "bullets", JList [])]).
Proof.
  split; [|split; [|split]].
  - unfold parse_json, call_loads.
    destruct (loads s); simpl; [eauto|].
    destruct (or_else _ _) as [g|]; [|eauto].
    destruct (loads g); simpl; eauto.
  - intros [Hs Hg]. unfold parse_json, call_loads. rewrite Hs. simpl.
    destruct (or_else _ _) as [g|]; [|reflexivity].
    rewrite (Hg g eq_refl). reflexivity.
  - apply strip_spec.
  - vm_compute. reflexivity.
Qed.

Lemma parse_json_total_fallback_witness :
  parse_json json_loads (of_string "  no json here ")
  = Ok (JDict [(of_string "abstract", JStr (strip (of_string "  no json here ")));
               (of_string "bullets", JList [])]).
Proof.
  apply (proj1 (proj2 (parse_json_total_fallback json_loads (of_string "  no json here ")))).
  split; [vm_compute; reflexivity|].
  intros g H. vm_compute in H. discriminate.
Defined.

(** ** split *)

Lemma split_from_word (w r cur : str) :
  forallb (fun c => negb (is_space c)) w = true ->
  split_from (w ++ r) cur = split_from r (rev w ++ cur).
Proof.
  revert cur. induction w as [|x w IH]; intros cur H; simpl in *; [reflexivity|].
  apply andb_true_iff in H. destruct H as [Hx Hw].
  apply negb_true_iff in Hx. rewrite Hx.
  rewrite IH by assumption. now rewrite <- app_assoc.
Qed.

Lemma split_word (w : str) : word w -> split w = [w].
Proof.
  intros [Hne Hw]. unfold split.
  rewrite <- (app_nil_r w) at 1. rewrite split_from_word by assumption.
  simpl. rewrite app_nil_r.
  destruct (rev w) eqn:E.
  - apply (f_equal (@rev _)) in E. rewrite rev_involutive in E. now subst.
  - rewrite <- E. now rewrite rev_involutive.
Qed.

Lemma split_word_space (w r : str) :
  word w -> split (w ++ [SP] ++ r) = w :: split r.
Proof.
  intros [Hne Hw]. unfold split.
  rewrite split_from_word by assumption. simpl. rewrite app_nil_r.
  destruct (rev w) eqn:E.
  - apply (f_equal (@rev _)) in E. rewrite rev_involutive in E. now subst.
  - rewrite <- E. now rewrite rev_involutive.
Qed.

(** Words joined by single spaces split back into the same words. *)
Lemma split_join (ws : list str) : Forall word ws -> split (join [SP] ws) = ws.
Proof.
  induction ws as [|w ws IH]; intros H; [reflexivity|].
  inversion H as [|? ? Hw Hws]; subst.
  destruct ws as [|w' ws].
  - simpl. apply split_word, Hw.
  - change (join [SP] (w :: w' :: ws)) with (w ++ [SP] ++ join [SP] (w' :: ws)).
    rewrite split_word_space by assumption. f_equal. apply IH, Hws.
Qed.

(** ** The word filter *)

Lemma collect_parts_from (txts acc : list str) :
  fold_left
    (fun parts txt =>
       if negb (is_empty txt) && (3 <=? len (split txt)) then parts ++ [txt]
       else parts)
    txts acc
  = acc ++ filter (fun t => 3 <=? len (split t)) txts.
Proof.
  revert acc. induction txts as [|t txts IH]; intros acc; simpl.
  - now rewrite app_nil_r.
  - rewrite IH. destruct t as [|c t]; simpl; [reflexivity|].
    destruct (3 <=? len (split (c :: t))); [|reflexivity].
    now rewrite <- app_assoc.
Qed.

Ltac all_words := repeat first [assumption | apply Forall_cons | apply Forall_nil].

(** C8.  The collected fragments are the given ones with at least three
    white-space separated words, in their order: a fragment is kept if and
    only if it has three words or more.  A fragment made of [k] words
    counts [k] words, so one of two words is dropped and one of three is
    kept. *)
Theorem min_word_filter (txts : list str) :
  collect_parts txts = filter (fun t => 3 <=? len (split t)) txts /\
  (forall t, In t (collect_parts txts) <-> In t txts /\ 3 <= len (split t)) /\
  (forall ws, Forall word ws -> len (split (join [SP] ws)) = len ws) /\
  (forall w1 w2, word w1 -> word w2 ->
     ~ In (join [SP] [w1; w2]) (collect_parts txts)) /\
  (forall w1 w2 w3, word w1 -> word w2 -> word w3 ->
     In (join [SP] [w1; w2; w3]) txts ->
     In (join [SP] [w1; w2; w3]) (collect_parts txts)).
Proof.
  assert (E : collect_parts txts = filter (fun t => 3 <=? len (split t)) txts)
    by apply (collect_parts_from txts []).
  assert (I : forall t, In t (collect_parts txts) <-> In t txts /\ 3 <= len (split t)).
  { intros t. rewrite E, filter_In. now rewrite Z.leb_le. }
  split; [exact E|]. split; [exact I|]. split; [|split].
  - intros ws H. now rewrite split_join.
  - intros w1 w2 H1 H2 Hin. apply I in Hin. destruct Hin as [_ Hc].
    rewrite split_join in Hc by all_words.
    unfold len in Hc. simpl in Hc. lia.
  - intros w1 w2 w3 H1 H2 H3 Hin. apply I. split; [assumption|].
    rewrite split_join by all_words.
    unfold len. simpl. lia.
Qed.

Lemma min_word_filter_witness :
  ~ In (of_string "two words")
       (collect_parts [of_string "two words"; of_string "three little words"]) /\
  In (of_string "three little words")
     (collect_parts [of_string "two words"; of_string "three little words"]).
Proof.
  pose proof (min_word_filter [of_string "two words"; of_string "three little words"])
    as (_ & _ & _ & H2 & H3).
  split.
  - apply (H2 (of_string "two") (of_string "words"));
      (split; [discriminate|reflexivity]).
  - apply (H3 (of_string "three") (of_string "little") (of_string "words"));
      try (split; [discriminate|reflexivity]).
    right. left. reflexivity.
Defined.

(** ** Visible characters *)

Lemma has_visible_app (a b : str) :
  has_visible (a ++ b) = has_visible a || has_visible b.
Proof. apply existsb_app. Qed.

Lemma has_visible_rev (s : str) : has_visible (rev s) = has_visible s.
Proof.
  induction s as [|x s IH]; [reflexivity|]. simpl rev.
  rewrite has_visible_app, IH. simpl. now rewrite orb_false_r, orb_comm.
Qed.

Lemma has_visible_lstrip (s : str) : has_visible (lstrip s) = has_visible s.
Proof.
  induction s as [|x s IH]; [reflexivity|]. simpl.
  destruct (is_space x) eqn:E; simpl; rewrite ?E; simpl; auto.
Qed.

Lemma has_visible_rstrip (s : str) : has_visible (rstrip s) = has_visible s.
Proof.
  induction s as [|x s IH]; [reflexivity|]. simpl.
  destruct (rstrip s) as [|y r].
  - rewrite <- IH. destruct (is_space x) eqn:E; simpl; rewrite ?E; reflexivity.
  - simpl in *. now rewrite IH.
Qed.

Lemma has_visible_strip (s : str) : has_visible (strip s) = has_visible s.
Proof. unfold strip. now rewrite has_visible_rstrip, has_visible_lstrip. Qed.

Lemma has_visible_collapse (s : str) (b : bool) :
  has_visible (collapse_from s b) = has_visible s.
Proof.
  revert b. induction s as [|x s IH]; intros b; [reflexivity|]. simpl.
  destruct (is_space x) eqn:E.
  - destruct b; simpl; rewrite IH; reflexivity.
  - simpl. now rewrite E, IH.
Qed.

Lemma has_visible_join (sep p : str) (ps : list str) :
  In p ps -> has_visible p = true -> has_visible (join sep ps) = true.
Proof.
  induction ps as [|q ps IH]; intros Hin Hp; [destruct Hin|].
  destruct ps as [|q' ps].
  - destruct Hin as [<-|[]]. exact Hp.
  - change (join sep (q :: q' :: ps)) with (q ++ sep ++ join sep (q' :: ps)).
    rewrite !has_visible_app. destruct Hin as [<-|Hin].
    + now rewrite Hp.
    + rewrite (IH Hin Hp). now rewrite !orb_true_r.
Qed.

Lemma split_from_blank (s : str) : has_visible s = false -> split_from s [] = [].
Proof.
  induction s as [|x s IH]; intros H; [reflexivity|]. simpl in *.
  apply orb_false_iff in H. destruct H as [Hx Hs].
  apply negb_false_iff in Hx. rewrite Hx. apply IH, Hs.
Qed.

Lemma has_visible_nonempty (s : str) : has_visible s = true -> s <> [].
Proof. intros H ->. discriminate. Qed.

(** The cleaned text is empty exactly when no fragment was collected. *)
Lemma clean_text_empty (txts : list str) :
  clean_text (collect_parts txts) = [] <-> collect_parts txts = [].
Proof.
  split; [|intros ->; reflexivity].
  intros Hc. destruct (collect_parts txts) as [|p ps] eqn:E; [reflexivity|exfalso].
  assert (Hin : In p (collect_parts txts)) by (rewrite E; now left).
  unfold collect_parts in Hin. rewrite collect_parts_from in Hin. simpl in Hin.
  apply filter_In in Hin. destruct Hin as [_ Hw]. apply Z.leb_le in Hw.
  assert (Hv : has_visible p = true).
  { destruct (has_visible p) eqn:V; [reflexivity|].
    unfold split in Hw. rewrite (split_from_blank p V) in Hw.
    rewrite len_nil in Hw. lia. }
  revert Hc. apply has_visible_nonempty. unfold clean_text, collapse_spaces.
  rewrite has_visible_strip, has_visible_collapse.
  apply (has_visible_join _ p); [now left|exact Hv].
Qed.

Lemma extract_ok (page : soup) (title text : str) :
  extract page = Ok (title, text) ->
  text <> [] /\ text = clean_text (collect_parts (fragments page)).
Proof.
  unfold extract. intros H.
  destruct (clean_text _) as [|c t] eqn:E; simpl in H; [discriminate|].
  injection H as _ <-. split; [discriminate|reflexivity].
Qed.

(** C9.  Once the page is fetched and parsed, [fetch_clean] fails with its
    own [SystemExit] message exactly when the cleaned text is empty, which
    is exactly when no fragment passed the word filter, and it has no other
    way to fail; a [SystemExit] is not an [Exception], so no handler of the
    program stops it; every text it returns is non-empty, and a page
    without a fragment that passes the filter makes it raise. *)
Theorem empty_extraction_is_fatal (page : soup) :
  (extract page = Raise (SystemExit no_text_msg)
   <-> clean_text (collect_parts (fragments page)) = []) /\
  (clean_text (collect_parts (fragments page)) = []
   <-> collect_parts (fragments page) = []) /\
  (forall title text, extract page = Ok (title, text) ->
     text <> [] /\ text = clean_text (collect_parts (fragments page))) /\
  (forall e, extract page = Raise e -> e = SystemExit no_text_msg) /\
  is_Exception (SystemExit no_text_msg) = false /\
  no_text_msg <> of_string "set GEMINI_API_KEY in .env" /\
  (forall (W : Type) (E : world W) (url : str) (w w' : W) title text,
     fetch_clean E url w = (Ok (title, text), w') -> text <> []) /\
  (forall (W : Type) (E : world W) (url : str) (w w' : W),
     http_get E url w = (Ok page, w') ->
     collect_parts (fragments page) = [] ->
     fetch_clean E url w = (Raise (SystemExit no_text_msg), w')).
Proof.
  split; [|split; [|split; [|split; [|split; [|split; [|split]]]]]].
  - unfold extract. destruct (clean_text _) as [|c t]; simpl.
    + tauto.
    + split; discriminate.
  - apply clean_text_empty.
  - apply extract_ok.
  - unfold extract. intros e H.
    destruct (is_empty _); [now injection H as <-|discriminate].
  - reflexivity.
  - discriminate.
  - intros W E url w w' title text H. unfold fetch_clean, bind, lift in H.
    destruct (http_get E url w) as [[page'|e] w1]; [|discriminate].
    injection H as H _. apply (extract_ok page' title text H).
  - intros W E url w w' Hget Hnone. unfold fetch_clean, bind, lift.
    rewrite Hget. unfold extract. rewrite Hnone. reflexivity.
Qed.

Lemma empty_extraction_is_fatal_witness :
  of_string "alpha beta gamma" <> [] /\
  of_string "alpha beta gamma" = clean_text (collect_parts (fragments page_one)).
Proof.
  destruct (empty_extraction_is_fatal page_one) as (_ & _ & H & _).
  apply (H (of_string "Example") (of_string "alpha beta gamma")).
  vm_compute. reflexivity.
Defined.

(** The example of the specification: a page with navigation and script
    content only. *)
Lemma nav_only_page_is_fatal :
  extract page_nav_only = Raise (SystemExit no_text_msg).
Proof. vm_compute. reflexivity. Qed.


(** ** The text the chunker receives *)

Lemma in_firstn {A : Type} (k : nat) (s : list A) (x : A) :
  In x (firstn k s) -> In x s.
Proof.
  intros H. rewrite <- (firstn_skipn k s). apply in_or_app. now left.
Qed.

Lemma in_skipn {A : Type} (k : nat) (s : list A) (x : A) :
  In x (skipn k s) -> In x s.
Proof.
  intros H. rewrite <- (firstn_skipn k s). apply in_or_app. now right.
Qed.

Lemma in_slice {A : Type} (s : list A) (a b : Z) (x : A) :
  In x (slice s a b) -> In x s.
Proof. unfold slice. intros H. eapply in_skipn, in_firstn, H. Qed.

Lemma in_lstrip (s : str) (c : char) : In c (lstrip s) -> In c s.
Proof.
  induction s as [|x s IH]; simpl; [tauto|].
  destruct (is_space x); [right; auto|tauto].
Qed.

Lemma in_rstrip (s : str) (c : char) : In c (rstrip s) -> In c s.
Proof.
  induction s as [|x s IH]; simpl; [tauto|].
  destruct (rstrip s) as [|y r].
  - destruct (is_space x); simpl; tauto.
  - intros [H|H]; [now left|right; apply IH, H].
Qed.

Lemma in_strip (s : str) (c : char) : In c (strip s) -> In c s.
Proof. unfold strip. intros H. apply in_lstrip, in_rstrip, H. Qed.

(** After the collapse the only white space left is the plain space. *)
Lemma collapse_plain (s : str) (b : bool) (c : char) :
  In c (collapse_from s b) -> is_space c = true -> c = SP.
Proof.
  revert b. induction s as [|x s IH]; intros b Hin Hc; simpl in *; [tauto|].
  destruct (is_space x) eqn:E.
  - destruct b; [apply (IH true Hin Hc)|].
    destruct Hin as [<-|Hin]; [reflexivity|apply (IH true Hin Hc)].
  - destruct Hin as [<-|Hin]; [congruence|apply (IH false Hin Hc)].
Qed.

Lemma clean_text_no_newline (ps : list str) : ~ In NL (clean_text ps).
Proof.
  unfold clean_text, collapse_spaces. intros H. apply in_strip in H.
  apply collapse_plain in H; [discriminate|reflexivity].
Qed.

(** Without a line break in the input, a segment is its whole window. *)
Lemma segment_no_newline (s : str) (n i : Z) :
  ~ In NL s -> 0 <= n -> segment s n i = slice s i (i + n).
Proof.
  intros Hs Hn. unfold segment.
  destruct (int_gt_float _ _) eqn:Hg; [|reflexivity].
  apply threshold_pos in Hg; [|assumption].
  rewrite rfind_absent in Hg; [lia|].
  intros H. apply Hs. eapply in_slice, H.
Qed.

(** C10, as the code has it.  The text [fetch_clean] returns holds no line
    break, so in the pipeline (where the chunker runs with its defaults) no
    segment is cut at a line break: every chunk is the whole window
    [text[i:i+12000]] at its offset, of length [min(12000, len(text) - i)],
    which is 12000 for every window that fits in the text. *)
Theorem pipeline_chunks_are_windows (page : soup) (title text : str) :
  extract page = Ok (title, text) ->
  ~ In NL text /\
  exists sp,
    chunk_spans text 12000 400 = Some sp /\
    chunks text 12000 400 = Some (map snd sp) /\
    forall i seg, In (i, seg) sp ->
      seg = slice text i (i + 12000) /\
      len seg = Z.min 12000 (len text - i) /\
      (i + 12000 <= len text -> len seg = 12000).
Proof.
  intros H. apply extract_ok in H. destruct H as [_ ->].
  set (text := clean_text _).
  assert (Hnl : ~ In NL text) by apply clean_text_no_newline.
  split; [exact Hnl|].
  destruct (chunk_spans_substrings text 12000 400 ltac:(lia) ltac:(lia))
    as (sp & E1 & E2 & Hsub).
  exists sp. split; [exact E1|]. split; [exact E2|].
  intros i seg Hin.
  assert (Hseg : seg = slice text i (i + 12000)).
  { unfold chunk_spans in E1. destruct (Z.leb_spec (len text) 12000) as [Hs|Hl].
    - injection E1 as <-. destruct Hin as [Hin|[]]. injection Hin as <- <-.
      symmetry. apply slice_whole. lia.
    - destruct (spans_loop_segments _ _ _ _ _ _ E1 _ _ Hin) as [-> _].
      apply segment_no_newline; [exact Hnl|lia]. }
  destruct (Hsub i seg Hin) as (Hi & Hle & _).
  pose proof (len_nonneg seg).
  assert (Hlen : len seg = Z.min 12000 (len text - i)).
  { rewrite Hseg. apply len_slice_window; lia. }
  split; [exact Hseg|]. split; [exact Hlen|]. lia.
Qed.

Lemma pipeline_chunks_are_windows_witness :
  ~ In NL (of_string "alpha beta gamma") /\
  exists sp,
    chunk_spans (of_string "alpha beta gamma") 12000 400 = Some sp /\
    chunks (of_string "alpha beta gamma") 12000 400 = Some (map snd sp) /\
    forall i seg, In (i, seg) sp ->
      seg = slice (of_string "alpha beta gamma") i (i + 12000) /\
      len seg = Z.min 12000 (len (of_string "alpha beta gamma") - i) /\
      (i + 12000 <= len (of_string "alpha beta gamma") -> len seg = 12000).
Proof.
  apply (pipeline_chunks_are_windows page_one (of_string "Example")).
  vm_compute. reflexivity.
Defined.

Lemma chunks_loop_step (fuel : nat) (s : str) (n overlap i : Z) :
  i < len s ->
  chunks_loop (S fuel) s n overlap i
  = option_map (cons (segment s n i))
      (chunks_loop fuel s n overlap (advance (segment s n i) overlap i)).
Proof.
  intros H. simpl. destruct (Z.ltb_spec i (len s)); [reflexivity|lia].
Qed.

Lemma chunks_loop_total (s : str) (n overlap : Z) (fuel : nat) (i : Z) :
  1 <= n -> 0 <= overlap -> 0 <= i -> len s - i <= Z.of_nat fuel ->
  exists cs, chunks_loop fuel s n overlap i = Some cs.
Proof.
  intros Hn Ho Hi Hf.
  destruct (spans_loop_spec s n overlap Hn Ho fuel i Hi Hf) as (sp & _ & E & _).
  eauto.
Qed.

(** A window of a text without line breaks, and the offset after it. *)
Lemma plain_window (s : str) (i : Z) :
  ~ In NL s -> 0 <= i < len s ->
  len (segment s 12000 i) = Z.min 12000 (len s - i) /\
  advance (segment s 12000 i) 400 i = i + Z.max 1 (Z.min 12000 (len s - i) - 400).
Proof.
  intros Hnl Hi. unfold advance.
  rewrite segment_no_newline by (assumption || lia).
  rewrite len_slice_window by lia. split; reflexivity.
Qed.

(** Past the last full window the offset moves one character at a time:
    a text of 12001 characters gets a chunk of 12000, then one of 401, one
    of 400, and more. *)
Lemma tail_of_short_chunks (text : str) :
  ~ In NL text -> len text = 12001 ->
  exists c1 c2 c3 rest,
    chunks text 12000 400 = Some (c1 :: c2 :: c3 :: rest) /\
    len c1 = 12000 /\ len c2 = 401 /\ len c3 = 400.
Proof.
  intros Hnl Hlen. unfold chunks. rewrite Hlen. simpl (12001 <=? 12000).
  assert (Hfuel : List.length text = S (S (S (Z.to_nat 11998))))
    by (unfold len in Hlen; lia).
  rewrite Hfuel.
  destruct (plain_window text 0 Hnl ltac:(lia)) as [L1 A1].
  destruct (plain_window text 11600 Hnl ltac:(lia)) as [L2 A2].
  destruct (plain_window text 11601 Hnl ltac:(lia)) as [L3 A3].
  rewrite Hlen in L1, A1, L2, A2, L3, A3.
  change (0 + Z.max 1 (Z.min 12000 (12001 - 0) - 400)) with 11600 in A1.
  change (11600 + Z.max 1 (Z.min 12000 (12001 - 11600) - 400)) with 11601 in A2.
  change (11601 + Z.max 1 (Z.min 12000 (12001 - 11601) - 400)) with 11602 in A3.
  rewrite chunks_loop_step, A1 by lia.
  rewrite chunks_loop_step, A2 by lia.
  rewrite chunks_loop_step, A3 by lia.
  destruct (chunks_loop_total text 12000 400 (Z.to_nat 11998) 11602)
    as [rest ->]; try lia.
  exists (segment text 12000 0), (segment text 12000 11600),
         (segment text 12000 11601), rest.
  split; [reflexivity|]. rewrite L1, L2, L3. repeat split; reflexivity.
Qed.

(** C10 as stated fails: the text of a page with one paragraph of 12001
    characters is cut into a chunk of 12000 characters followed by short
    ones; the second chunk has 401 characters and is not the last. *)
Lemma short_chunks_before_the_last :
  extract page_long = Ok ([], long_text) /\
  exists c1 c2 c3 rest,
    chunks long_text 12000 400 = Some (c1 :: c2 :: c3 :: rest) /\
    len c1 = 12000 /\ len c2 = 401 /\ len c3 = 400.
Proof.
  assert (E : extract page_long = Ok ([], long_text)) by (vm_compute; reflexivity).
  split; [exact E|].
  apply tail_of_short_chunks.
  - destruct (extract_ok _ _ _ E) as [_ ->]. apply clean_text_no_newline.
  - vm_compute. reflexivity.
Qed.



(** ** Dictionaries *)

Lemma str_eqb_eq (a b : str) : str_eqb a b = true <-> a = b.
Proof.
  revert b. induction a as [|x a IH]; intros [|y b]; simpl; split; intros H;
    try reflexivity; try discriminate.
  - apply andb_true_iff in H. destruct H as [Hx Ha].
    apply N.eqb_eq in Hx. apply IH in Ha. now subst.
  - injection H as -> ->. rewrite N.eqb_refl. now apply IH.
Qed.

Lemma dict_lookup_set_same (d : dict) (k : str) (v : json) :
  dict_lookup (dict_set d k v) k = Some v.
Proof.
  assert (R : str_eqb k k = true) by now apply str_eqb_eq.
  induction d as [|[k' v'] d IH]; simpl; [now rewrite R|].
  destruct (str_eqb k' k) eqn:E; simpl; rewrite E; [reflexivity|exact IH].
Qed.

Lemma dict_lookup_set_other (d : dict) (k k' : str) (v : json) :
  str_eqb k k' = false -> dict_lookup (dict_set d k v) k' = dict_lookup d k'.
Proof.
  intros N. induction d as [|[k0 v0] d IH]; simpl; [now rewrite N|].
  destruct (str_eqb k0 k) eqn:E; simpl.
  - apply str_eqb_eq in E. subst k0. now rewrite N.
  - destruct (str_eqb k0 k'); [reflexivity|exact IH].
Qed.

Lemma dict_lookup_setdefault_other (d : dict) (k k' : str) (v : json) :
  str_eqb k k' = false ->
  dict_lookup (dict_setdefault d k v) k' = dict_lookup d k'.
Proof.
  intros N. unfold dict_setdefault.
  destruct (dict_lookup d k); [reflexivity|]. now apply dict_lookup_set_other.
Qed.

(** ** The merge step *)

Lemma merge_bullets_cap (sect : list json) (b : Z) (l : list json) :
  0 <= b -> merge_bullets sect b = Ok l -> len l <= b.
Proof.
  intros Hb. unfold merge_bullets.
  destruct (sum_bullets sect []) as [all|e]; [|discriminate].
  intros H. injection H as <-. unfold slice_to.
  pose proof (len_slice_window all 0 b ltac:(lia) (len_nonneg all) Hb) as L.
  simpl in L. rewrite L. lia.
Qed.

(** What [finish] leaves under the keys "bullets" and "abstract". *)
Lemma finish_spec (fd : dict) (merged_abs : str) (merged_bul : list json)
    (title url : str) (max_words : Z) :
  exists d,
    finish (JDict fd) merged_abs merged_bul title url max_words = Ok d /\
    dict_lookup d (of_string "bullets")
    = Some (if truthy (dict_get fd (of_string "bullets") (JList []))
            then dict_get fd (of_string "bullets") (JList [])
            else JList merged_bul) /\
    dict_lookup d (of_string "abstract")
    = Some (match dict_lookup fd (of_string "abstract") with
            | Some v => v
            | None => JStr (slice_to merged_abs (max_words * 8))
            end).
Proof.
  eexists. split; [reflexivity|]. split.
  - rewrite dict_lookup_set_other by reflexivity.
    rewrite dict_lookup_set_other by reflexivity.
    rewrite dict_lookup_set_same. unfold dict_get.
    now rewrite dict_lookup_setdefault_other by reflexivity.
  - rewrite dict_lookup_set_other by reflexivity.
    rewrite dict_lookup_set_other by reflexivity.
    rewrite dict_lookup_set_other by reflexivity.
    unfold dict_setdefault.
    destruct (dict_lookup fd (of_string "abstract")) as [v|] eqn:E; [exact E|].
    apply dict_lookup_set_same.
Qed.

(** ** Runs of the pipeline *)

Lemma bind_ok {W A B : Type} (m : M W A) (k : A -> M W B) (w w' : W) (b : B) :
  bind m k w = (Ok b, w') ->
  exists a w1, m w = (Ok a, w1) /\ k a w1 = (Ok b, w').
Proof.
  unfold bind. destruct (m w) as [[a|e] w1]; [eauto|discriminate].
Qed.

Lemma lift_ok {W A : Type} (r : result A) (w w' : W) (a : A) :
  lift r w = (Ok a, w') -> r = Ok a /\ w' = w.
Proof. unfold lift. intros H. injection H as -> ->. auto. Qed.

Lemma exhaust_ok {W A : Type} (g : option (list A)) (w w' : W) (l : list A) :
  exhaust g w = (Ok l, w') -> g = Some l /\ w' = w.
Proof.
  destruct g as [l'|]; unfold exhaust, ret, raise; intros H; [|discriminate].
  injection H as -> ->. auto.
Qed.

(** The steps of a run of [summarize_url] that returns. *)
Lemma summarize_url_ok (W : Type) (E : world W) (url name : str)
    (b max_words : Z) (w w' : W) (d : dict) :
  summarize_url E url name b max_words w = (Ok d, w') ->
  exists title text w1 m w2 cs sect w3 merged_abs merged_bul final,
    fetch_clean E url w = (Ok (title, text), w1) /\
    make_model E name w1 = (Ok m, w2) /\
    chunks text 12000 400 = Some cs /\
    mapM (fun c => summarize_block E m c (Z.min 7 b) (Z.min 220 max_words)) cs w2
    = (Ok sect, w3) /\
    merge_abstracts sect = Ok merged_abs /\
    merge_bullets sect b = Ok merged_bul /\
    summarize_block E m merged_abs b max_words w3 = (Ok final, w') /\
    finish final merged_abs merged_bul title url max_words = Ok d.
Proof.
  intros H. unfold summarize_url in H.
  apply bind_ok in H. destruct H as ([title text] & w1 & Hfetch & H).
  apply bind_ok in H. destruct H as (m & w2 & Hmodel & H).
  apply bind_ok in H. destruct H as (cs & w2' & Hcs & H).
  apply exhaust_ok in Hcs. destruct Hcs as [Hcs ->].
  apply bind_ok in H. destruct H as (sect & w3 & Hsect & H).
  apply bind_ok in H. destruct H as (merged_abs & w4 & Ha & H).
  apply lift_ok in Ha. destruct Ha as [Ha ->].
  apply bind_ok in H. destruct H as (merged_bul & w5 & Hm & H).
  apply lift_ok in Hm. destruct Hm as [Hm ->].
  apply bind_ok in H. destruct H as (final & w6 & Hf & H).
  apply lift_ok in H. destruct H as [H ->].
  exists title, text, w1, m, w2, cs, sect, w3, merged_abs, merged_bul, final.
  repeat split; assumption.
Qed.

(** C3, as the code has it.  In every run of [summarize_url] that returns,
    with a requested bullet count [b >= 0]: the merged bullets, cut from
    the bullets of the chunk summaries, are at most [b]; the final call
    returned a dict; the bullets of the result are the final call's own
    bullets when that value is truthy (a non-empty list), returned as they
    are, and the merged bullets otherwise, so that in the fallback case the
    result has at most [b] bullets. *)
Theorem bullet_cap (W : Type) (E : world W) (url name : str) (b max_words : Z)
    (w w' : W) (d : dict) :
  0 <= b ->
  summarize_url E url name b max_words w = (Ok d, w') ->
  exists m cs w2 sect w3 merged_abs merged_bul fd,
    mapM (fun c => summarize_block E m c (Z.min 7 b) (Z.min 220 max_words)) cs w2
    = (Ok sect, w3) /\
    merge_abstracts sect = Ok merged_abs /\
    merge_bullets sect b = Ok merged_bul /\
    len merged_bul <= b /\
    summarize_block E m merged_abs b max_words w3 = (Ok (JDict fd), w') /\
    dict_lookup d (of_string "bullets")
    = Some (if truthy (dict_get fd (of_string "bullets") (JList []))
            then dict_get fd (of_string "bullets") (JList [])
            else JList merged_bul) /\
    (truthy (dict_get fd (of_string "bullets") (JList [])) = false ->
     dict_lookup d (of_string "bullets") = Some (JList merged_bul)).
Proof.
  intros Hb H. apply summarize_url_ok in H.
  destruct H as (title & text & w1 & m & w2 & cs & sect & w3 & merged_abs
                 & merged_bul & final & _ & _ & _ & Hsect & Ha & Hm & Hf & H).
  destruct final as [| | | | | |fd]; try discriminate.
  destruct (finish_spec fd merged_abs merged_bul title url max_words)
    as (d' & Hd & Hbul & _).
  rewrite Hd in H. injection H as <-.
  exists m, cs, w2, sect, w3, merged_abs, merged_bul, fd.
  split; [exact Hsect|]. split; [exact Ha|]. split; [exact Hm|].
  split; [apply (merge_bullets_cap sect b _ Hb Hm)|].
  split; [exact Hf|]. split; [exact Hbul|].
  intros Hfalse. rewrite Hbul, Hfalse. reflexivity.
Qed.

Lemma bullet_cap_witness :
  exists m cs w2 sect w3 merged_abs merged_bul fd,
    mapM (fun c => summarize_block world_two_bullets m c (Z.min 7 6) (Z.min 220 180))
         cs w2
    = (Ok sect, w3) /\
    merge_abstracts sect = Ok merged_abs /\
    merge_bullets sect 6 = Ok merged_bul /\
    len merged_bul <= 6 /\
    summarize_block world_two_bullets m merged_abs 6 180 w3 = (Ok (JDict fd), 2%nat) /\
    dict_lookup summary_two_bullets (of_string "bullets")
    = Some (if truthy (dict_get fd (of_string "bullets") (JList []))
            then dict_get fd (of_string "bullets") (JList [])
            else JList merged_bul) /\
    (truthy (dict_get fd (of_string "bullets") (JList [])) = false ->
     dict_lookup summary_two_bullets (of_string "bullets") = Some (JList merged_bul)).
Proof.
  apply (bullet_cap nat world_two_bullets sample_url sample_model 6 180 0%nat).
  - lia.
  - vm_compute. reflexivity.
Defined.

(** C3 as stated fails: with one bullet requested and a final answer that
    carries two, the result has two bullets. *)
Lemma final_bullets_exceed_cap :
  summarize_url world_two_bullets sample_url sample_model 1 180 0%nat
  = (Ok summary_two_bullets, 2%nat) /\
  dict_lookup summary_two_bullets (of_string "bullets")
  = Some (JList [JStr (of_string "q"); JStr (of_string "r")]) /\
  1 < len [JStr (of_string "q"); JStr (of_string "r")].
Proof.
  split; [vm_compute; reflexivity|]. split; [reflexivity|]. reflexivity.
Qed.

(** C2 fails on the code.  The page has one chunk, summarized as "part
    one", so the merged abstract is "part one" and so are its first
    [180*8] characters; the final call answers with an empty abstract,
    [setdefault] finds the key present, and the returned abstract is
    empty. *)
Theorem empty_abstract_is_kept :
  summarize_block world_empty_final
    {| model_name := sample_model; json_mode := true |}
    (of_string "alpha beta gamma") 6 180 0%nat
  = (Ok section_one, 1%nat) /\
  merge_abstracts [section_one] = Ok (of_string "part one") /\
  slice_to (of_string "part one") (180 * 8) = of_string "part one" /\
  summarize_url world_empty_final sample_url sample_model 6 180 0%nat
  = (Ok summary_empty_abstract, 2%nat) /\
  dict_lookup summary_empty_abstract (of_string "abstract") = Some (JStr []).
Proof.
  split; [vm_compute; reflexivity|].
  split; [vm_compute; reflexivity|].
  split; [vm_compute; reflexivity|].
  split; [vm_compute; reflexivity|].
  reflexivity.
Qed.

(** The fallback of the abstract is used when the key is absent, and only
    then: a value that is present, empty or not, is returned as it is. *)
Lemma abstract_fallback_only_when_absent (fd : dict) (merged_abs : str)
    (merged_bul : list json) (title url : str) (max_words : Z) :
  exists d,
    finish (JDict fd) merged_abs merged_bul title url max_words = Ok d /\
    (forall v, dict_lookup fd (of_string "abstract") = Some v ->
               dict_lookup d (of_string "abstract") = Some v) /\
    (dict_lookup fd (of_string "abstract") = None ->
     dict_lookup d (of_string "abstract")
     = Some (JStr (slice_to merged_abs (max_words * 8)))).
Proof.
  destruct (finish_spec fd merged_abs merged_bul title url max_words)
    as (d & Hd & _ & Ha).
  exists d. split; [exact Hd|]. split.
  - intros v Hv. now rewrite Ha, Hv.
  - intros Hn. now rewrite Ha, Hn.
Qed.

(** * Further properties *)

(** ** More on the chunker *)

(** The loop returns for every parameter, with at most one chunk per
    remaining character. *)
Lemma chunks_loop_any (s : str) (n overlap : Z) (fuel : nat) :
  forall i, 0 <= i -> len s - i <= Z.of_nat fuel ->
  exists cs, chunks_loop fuel s n overlap i = Some cs /\
             len cs <= Z.max 0 (len s - i) /\
             (i < len s -> cs <> []).
Proof.
  induction fuel as [|fuel IH]; intros i Hi Hf; simpl.
  - destruct (Z.ltb_spec i (len s)); [lia|].
    exists []. rewrite len_nil. repeat split; lia.
  - destruct (Z.ltb_spec i (len s)) as [Hlt|Hge].
    + set (seg := segment s n i).
      assert (Ha : i < advance seg overlap i) by (unfold advance; lia).
      destruct (IH (advance seg overlap i) ltac:(lia) ltac:(lia)) as (cs & -> & Hc & _).
      exists (seg :: cs). simpl. rewrite len_cons.
      repeat split; [lia|discriminate].
    + exists []. rewrite len_nil. repeat split; lia.
Qed.

Lemma chunks_returns (s : str) (n overlap : Z) :
  exists cs, chunks s n overlap = Some cs.
Proof.
  unfold chunks. destruct (len s <=? n); [eauto|].
  destruct (chunks_loop_any s n overlap (List.length s) 0 ltac:(lia)
              ltac:(unfold len; lia)) as (cs & E & _).
  eauto.
Qed.

(** X1.  [chunks] returns for every string and every pair of integers, the
    invalid ones included, as long as [n*0.6] can be computed (the
    conversion of [n] to a float raises near [-2^1024]); it never yields
    more chunks than the input has characters (one for an input no longer
    than [n]); and it yields nothing in one case only: the empty string
    with a negative [n]. *)
Theorem chunks_always_return (s : str) (n overlap : Z) :
  - 2 ^ 1023 < n ->
  exists cs,
    chunks s n overlap = Some cs /\
    len cs <= Z.max 1 (len s) /\
    (cs = [] <-> s = [] /\ n < 0).
Proof.
  intros _. unfold chunks. pose proof (len_nonneg s) as Hs.
  destruct (Z.leb_spec (len s) n) as [Hshort|Hlong].
  - exists [s]. split; [reflexivity|]. split; [unfold len at 1; simpl; lia|].
    split; [discriminate|]. intros [_ Hn]. lia.
  - destruct (chunks_loop_any s n overlap (List.length s) 0 ltac:(lia)
                ltac:(unfold len; lia)) as (cs & E & Hc & Hne).
    exists cs. split; [exact E|]. split; [lia|].
    split.
    + intros ->. destruct s as [|x s]; [split; [reflexivity|]|].
      * rewrite len_nil in Hlong. lia.
      * exfalso. apply Hne; [rewrite len_cons; pose proof (len_nonneg s); lia|reflexivity].
    + intros [-> Hn]. simpl in E. injection E as <-. reflexivity.
Qed.

Lemma chunks_always_return_witness :
  exists cs,
    chunks (of_string "abc") (-1) (-2) = Some cs /\
    len cs <= Z.max 1 (len (of_string "abc")) /\
    (cs = [] <-> of_string "abc" = [] /\ -1 < 0).
Proof.
  apply (chunks_always_return (of_string "abc") (-1) (-2)).
  vm_compute. reflexivity.
Defined.

Lemma spans_loop_stepped (s : str) (n overlap : Z) (fuel : nat) :
  forall i sp, spans_loop fuel s n overlap i = Some sp ->
  stepped overlap sp /\ match sp with (i0, _) :: _ => i0 = i | [] => True end.
Proof.
  induction fuel as [|fuel IH]; intros i sp E; simpl in E;
    destruct (Z.ltb_spec i (len s)); try discriminate;
    try (injection E as <-; simpl; auto).
  destruct (spans_loop fuel s n overlap _) as [sp'|] eqn:E'; [|discriminate].
  simpl in E. injection E as <-.
  destruct (IH _ _ E') as [Hs Hh]. simpl.
  destruct sp' as [|[i2 seg2] rest]; auto.
Qed.

(** X2.  With valid parameters no chunk is longer than [n], and no chunk is
    empty unless the input itself is. *)
Theorem chunk_lengths_bounded (s : str) (n overlap : Z) (cs : list str) :
  1 <= n -> 0 <= overlap -> chunks s n overlap = Some cs ->
  forall c, In c cs -> len c <= n /\ (s <> [] -> 1 <= len c).
Proof.
  intros Hn Ho E c Hin. unfold chunks in E.
  destruct (Z.leb_spec (len s) n) as [Hshort|Hlong].
  - injection E as <-. destruct Hin as [<-|[]]. split; [exact Hshort|].
    intros Hne. destruct s; [contradiction|]. rewrite len_cons.
    pose proof (len_nonneg s). lia.
  - destruct (spans_loop_spec s n overlap Hn Ho (List.length s) 0 ltac:(lia)
                ltac:(unfold len; lia)) as (sp & _ & E2 & F & _).
    rewrite E2 in E. injection E as <-.
    apply in_map_iff in Hin. destruct Hin as ([i seg] & <- & Hin).
    rewrite Forall_forall in F. destruct (F _ Hin) as [_ Hl]. simpl in *. lia.
Qed.

Lemma chunk_lengths_bounded_witness :
  len (of_string "bbbb" ++ [NL] ++ of_string "cc") <= 10 /\
  (sample_lines <> [] -> 1 <= len (of_string "bbbb" ++ [NL] ++ of_string "cc")).
Proof.
  apply (chunk_lengths_bounded sample_lines 10 2
           [of_string "aaaa" ++ [NL] ++ of_string "bbbbb";
            of_string "bbbb" ++ [NL] ++ of_string "cc";
            of_string "cc"; of_string "c"]); [lia|lia| |].
  - vm_compute. reflexivity.
  - right. left. reflexivity.
Defined.

Lemma skipn_skipn_add {A : Type} (a b : nat) (l : list A) :
  skipn a (skipn b l) = skipn (b + a) l.
Proof.
  revert l. induction b as [|b IH]; intros l; simpl; [reflexivity|].
  destruct l; [now rewrite skipn_nil|apply IH].
Qed.

(** With no overlap the loop yields, piece by piece, what is left of the
    input from its offset on. *)
Lemma chunks_loop_partition (s : str) (n : Z) (fuel : nat) :
  1 <= n ->
  forall i cs, 0 <= i -> len s - i <= Z.of_nat fuel ->
  chunks_loop fuel s n 0 i = Some cs ->
  List.concat cs = skipn (Z.to_nat i) s.
Proof.
  intros Hn. induction fuel as [|fuel IH]; intros i cs Hi Hf E; simpl in E.
  - destruct (Z.ltb_spec i (len s)); [lia|]. injection E as <-.
    symmetry. apply skipn_all2. unfold len in *. lia.
  - destruct (Z.ltb_spec i (len s)) as [Hlt|Hge].
    + destruct (segment_spec s n i ltac:(lia) Hn) as [Hl (_ & Hle & Hseg)].
      set (seg := segment s n i) in *.
      assert (Ha : advance seg 0 i = i + len seg) by (unfold advance; lia).
      rewrite Ha in E.
      destruct (chunks_loop fuel s n 0 (i + len seg)) as [cs'|] eqn:E'; [|discriminate].
      simpl in E. injection E as <-.
      simpl. rewrite (IH (i + len seg) cs' ltac:(lia) ltac:(lia) E').
      rewrite Hseg at 1. rewrite slice_inside by lia.
      replace (i + len seg - i) with (len seg) by lia.
      replace (Z.to_nat (i + len seg)) with (Z.to_nat i + Z.to_nat (len seg))%nat by lia.
      rewrite <- skipn_skipn_add. apply firstn_skipn.
    + injection E as <-. symmetry. apply skipn_all2. unfold len in *. lia.
Qed.

(** X3.  With [overlap = 0] the chunks are a partition of the input: put
    end to end they give the input back, whatever line breaks it holds. *)
Theorem chunks_without_overlap_partition (s : str) (n : Z) (cs : list str) :
  1 <= n -> chunks s n 0 = Some cs -> List.concat cs = s.
Proof.
  intros Hn E. unfold chunks in E.
  destruct (Z.leb_spec (len s) n).
  - injection E as <-. simpl. apply app_nil_r.
  - apply (chunks_loop_partition s n _ Hn 0 cs) in E;
      [exact E|lia|unfold len; lia].
Qed.

Lemma chunks_without_overlap_partition_witness :
  List.concat [of_string "aaaa" ++ [NL] ++ of_string "bb"; of_string "bbbbb";
               [NL] ++ of_string "cc"]
  = sample_lines.
Proof.
  apply (chunks_without_overlap_partition sample_lines 7); [lia|].
  vm_compute. reflexivity.
Defined.

Lemma stepped_nth (overlap : Z) (sp : list (Z * str)) :
  stepped overlap sp ->
  forall k i1 seg1 i2 seg2,
  nth_error sp k = Some (i1, seg1) -> nth_error sp (S k) = Some (i2, seg2) ->
  i2 = advance seg1 overlap i1.
Proof.
  induction sp as [|[j seg] rest IH]; intros H k i1 seg1 i2 seg2 H1 H2.
  - destruct k; discriminate.
  - destruct rest as [|[j' seg'] rest']; [destruct k as [|[|k]]; discriminate|].
    destruct H as [Hj H]. destruct k as [|k].
    + simpl in H1, H2. injection H1 as <- <-. injection H2 as <- <-. exact Hj.
    + apply (IH H k i1 seg1 i2 seg2); assumption.
Qed.

(** X4.  Consecutive chunks overlap: when a chunk is longer than [overlap],
    the next one starts [overlap] characters before its end, so the next
    chunk begins with the last [overlap] characters of this one (or with as
    many of them as the next chunk is long). *)
Theorem consecutive_chunks_overlap (s : str) (n overlap : Z)
    (sp : list (Z * str)) (k : nat) (i1 i2 : Z) (seg1 seg2 : str) :
  1 <= n -> 0 <= overlap ->
  chunk_spans s n overlap = Some sp ->
  nth_error sp k = Some (i1, seg1) -> nth_error sp (S k) = Some (i2, seg2) ->
  overlap < len seg1 ->
  i2 = i1 + len seg1 - overlap /\
  firstn (Z.to_nat (Z.min overlap (len seg2))) seg2
  = firstn (Z.to_nat (Z.min overlap (len seg2)))
      (skipn (Z.to_nat (len seg1 - overlap)) seg1).
Proof.
  intros Hn Ho E H1 H2 Hlong.
  destruct (chunk_spans_substrings s n overlap Hn Ho) as (sp' & E' & _ & Hsub).
  rewrite E in E'. injection E' as <-.
  assert (Hstep : stepped overlap sp).
  { unfold chunk_spans in E. destruct (len s <=? n).
    - injection E as <-. exact I.
    - apply (spans_loop_stepped _ _ _ _ _ _ E). }
  pose proof (stepped_nth overlap sp Hstep k _ _ _ _ H1 H2) as Hi2.
  unfold advance in Hi2. rewrite Z.max_r in Hi2 by lia.
  split; [lia|].
  destruct (Hsub _ _ (nth_error_In _ _ H1)) as (Hi1 & Hle1 & Hs1).
  destruct (Hsub _ _ (nth_error_In _ _ H2)) as (_ & Hle2 & Hs2).
  pose proof (len_nonneg seg2) as Hl2.
  set (l1 := len seg1) in *. set (l2 := len seg2) in *.
  rewrite Hs1, Hs2. rewrite !slice_inside by lia.
  replace (i1 + l1 - i1) with l1 by lia.
  replace (i2 + l2 - i2) with l2 by lia.
  rewrite skipn_firstn_comm, skipn_skipn_add.
  rewrite !firstn_firstn.
  replace (Z.to_nat i1 + Z.to_nat (l1 - overlap))%nat with (Z.to_nat i2) by lia.
  f_equal. lia.
Qed.

Lemma consecutive_chunks_overlap_witness :
  8 = 0 + len (of_string "aaaa" ++ [NL] ++ of_string "bbbbb") - 2 /\
  firstn (Z.to_nat (Z.min 2 (len (of_string "bbbb" ++ [NL] ++ of_string "cc"))))
    (of_string "bbbb" ++ [NL] ++ of_string "cc")
  = firstn (Z.to_nat (Z.min 2 (len (of_string "bbbb" ++ [NL] ++ of_string "cc"))))
      (skipn (Z.to_nat (len (of_string "aaaa" ++ [NL] ++ of_string "bbbbb") - 2))
         (of_string "aaaa" ++ [NL] ++ of_string "bbbbb")).
Proof.
  apply (consecutive_chunks_overlap sample_lines 10 2
           [(0, of_string "aaaa" ++ [NL] ++ of_string "bbbbb");
            (8, of_string "bbbb" ++ [NL] ++ of_string "cc");
            (13, of_string "cc"); (14, of_string "c")] 0%nat);
    try lia; reflexivity.
Defined.

(** A window of a text without line breaks. *)
Lemma plain_segment_len (s : str) (n i : Z) :
  ~ In NL s -> 0 <= n -> 0 <= i <= len s ->
  len (segment s n i) = Z.min n (len s - i).
Proof.
  intros Hs Hn Hi. rewrite segment_no_newline by assumption.
  apply len_slice_window; lia.
Qed.

(** How many chunks the loop yields from offset [i] on a text without line
    breaks: one per character once at most [overlap + 1] characters are
    left, and so at least [overlap + 1] when more are left. *)
Lemma chunks_loop_tail (s : str) (n overlap : Z) (fuel : nat) :
  ~ In NL s -> 0 <= overlap < n ->
  forall i cs, 0 <= i < len s -> len s - i <= Z.of_nat fuel ->
  chunks_loop fuel s n overlap i = Some cs ->
  (len s - i <= overlap + 1 -> len cs = len s - i) /\
  (overlap + 1 <= len s - i -> overlap + 1 <= len cs) /\
  (n < len s - i -> overlap + 2 <= len cs).
Proof.
  intros Hs Ho. induction fuel as [|fuel IH]; intros i cs Hi Hf E; [lia|].
  rewrite chunks_loop_step in E by lia.
  pose proof (plain_segment_len s n i Hs ltac:(lia) ltac:(lia)) as Hw.
  unfold advance in E. rewrite Hw in E.
  set (i' := i + Z.max 1 (Z.min n (len s - i) - overlap)) in *.
  destruct (chunks_loop fuel s n overlap i') as [cs'|] eqn:E'; [|discriminate].
  simpl in E. injection E as <-. rewrite len_cons.
  destruct (Z.lt_ge_cases i' (len s)) as [Hin|Hout].
  - destruct (IH i' cs' ltac:(lia) ltac:(lia) E') as (T1 & T2 & T3).
    repeat split; intros; lia.
  - assert (cs' = []) as ->.
    { destruct fuel; simpl in E'; destruct (Z.ltb_spec i' (len s)); try lia;
        now injection E' as <-. }
    rewrite len_nil. repeat split; intros; lia.
Qed.

(** X5.  On a text without line breaks that is longer than [n], with
    [0 <= overlap < n], the chunker yields at least [overlap + 2] chunks:
    after the last full window the offset moves one character at a time,
    and each of the last [overlap] positions gets a chunk of its own. *)
Theorem chunk_count_at_least_overlap (s : str) (n overlap : Z) :
  ~ In NL s -> 0 <= overlap < n -> n < len s ->
  exists cs, chunks s n overlap = Some cs /\ overlap + 2 <= len cs.
Proof.
  intros Hs Ho Hlong.
  destruct (chunks_returns s n overlap) as (cs & E).
  exists cs. split; [exact E|].
  unfold chunks in E. destruct (Z.leb_spec (len s) n); [lia|].
  apply (chunks_loop_tail s n overlap _ Hs Ho 0 cs) in E; [|lia|unfold len; lia].
  destruct E as (_ & _ & T3). apply T3. lia.
Qed.

Lemma chunk_count_at_least_overlap_witness :
  exists cs, chunks (of_string "abcdefg") 5 2 = Some cs /\ 2 + 2 <= len cs.
Proof.
  apply (chunk_count_at_least_overlap (of_string "abcdefg") 5 2).
  - intros H. simpl in H. repeat destruct H as [H|H]; try discriminate H. exact H.
  - lia.
  - vm_compute. reflexivity.
Defined.

(** ** The cleaned text, word by word *)

Lemma split_from_space (a b cur : str) (x : char) :
  is_space x = true ->
  split_from (a ++ x :: b) cur = split_from a cur ++ split_from b [].
Proof.
  intros Hx. revert cur. induction a as [|y a IH]; intros cur; simpl.
  - rewrite Hx. destruct cur; reflexivity.
  - destruct (is_space y).
    + destruct cur; simpl; now rewrite IH.
    + apply IH.
Qed.

(** The words of fragments joined by line breaks are the words of the
    fragments. *)
Lemma split_join_newline (ps : list str) :
  split (join [NL] ps) = flat_map split ps.
Proof.
  induction ps as [|p ps IH]; [reflexivity|].
  destruct ps as [|q ps].
  - simpl. now rewrite app_nil_r.
  - change (join [NL] (p :: q :: ps)) with (p ++ NL :: join [NL] (q :: ps)).
    unfold split at 1. rewrite split_from_space by reflexivity.
    fold (split p). fold (split (join [NL] (q :: ps))). rewrite IH. reflexivity.
Qed.

Lemma split_from_words (s cur : str) :
  forallb (fun c => negb (is_space c)) cur = true ->
  Forall word (split_from s cur).
Proof.
  assert (W : forall c, c <> [] -> forallb (fun c => negb (is_space c)) c = true ->
                        word (rev c)).
  { intros c Hne Hc. split.
    - intros E. apply Hne. apply (f_equal (@rev _)) in E.
      now rewrite rev_involutive in E.
    - rewrite forallb_forall in *. intros x Hx. apply Hc. now apply in_rev. }
  revert cur. induction s as [|x s IH]; intros cur Hc; simpl.
  - destruct cur as [|c cur]; constructor; [|constructor].
    apply W; [discriminate|exact Hc].
  - destruct (is_space x) eqn:Hx.
    + destruct cur as [|c cur]; [apply IH; reflexivity|].
      constructor; [apply W; [discriminate|exact Hc]|apply IH; reflexivity].
    + apply IH. simpl. now rewrite Hx, Hc.
Qed.

Lemma split_words (s : str) : Forall word (split s).
Proof. apply split_from_words. reflexivity. Qed.

Lemma split_lstrip (s : str) : split (lstrip s) = split s.
Proof.
  induction s as [|x s IH]; [reflexivity|]. simpl.
  destruct (is_space x) eqn:Hx; [|reflexivity].
  rewrite IH. unfold split. simpl. now rewrite Hx.
Qed.

Lemma collapse_in_run (s : str) :
  collapse_from s true = collapse_from (lstrip s) false.
Proof.
  induction s as [|x s IH]; [reflexivity|]. simpl.
  destruct (is_space x) eqn:Hx; [exact IH|]. simpl. now rewrite Hx.
Qed.

Lemma lstrip_collapse (s : str) :
  lstrip (collapse_from s false) = collapse_from (lstrip s) false.
Proof.
  destruct s as [|x s]; [reflexivity|]. simpl.
  destruct (is_space x) eqn:Hx; simpl.
  - rewrite collapse_in_run.
    destruct (lstrip_spec s) as (l & _ & _ & Hh).
    destruct (lstrip s) as [|y t]; [reflexivity|].
    simpl. rewrite Hh. simpl. now rewrite Hh.
  - now rewrite Hx.
Qed.

Lemma collapse_word (w r : str) (b : bool) :
  w <> [] -> forallb (fun c => negb (is_space c)) w = true ->
  collapse_from (w ++ r) b = w ++ collapse_from r false.
Proof.
  revert b. induction w as [|x w IH]; intros b Hne Hw; [contradiction|].
  simpl in *. apply andb_true_iff in Hw. destruct Hw as [Hx Hw].
  apply negb_true_iff in Hx. rewrite Hx. f_equal.
  destruct w as [|y w]; [reflexivity|]. apply IH; [discriminate|exact Hw].
Qed.

Lemma rstrip_app (a b : str) :
  rstrip (a ++ b) = match rstrip b with
                    | [] => rstrip a
                    | _ => a ++ rstrip b
                    end.
Proof.
  induction a as [|x a IH]; simpl.
  - destruct (rstrip b); reflexivity.
  - rewrite IH. destruct (rstrip b) as [|y t]; [reflexivity|].
    destruct a; reflexivity.
Qed.

Lemma rstrip_word (w : str) : word w -> rstrip w = w.
Proof.
  intros [Hne Hw]. induction w as [|x w IH]; [contradiction|].
  simpl in *. apply andb_true_iff in Hw. destruct Hw as [Hx Hw].
  apply negb_true_iff in Hx.
  destruct w as [|y w]; [simpl; now rewrite Hx|].
  rewrite IH by (discriminate || assumption). reflexivity.
Qed.

(** A string that starts with a visible character starts with a word,
    followed by nothing or by white space. *)
Lemma leading_word (x : char) (r : str) :
  is_space x = false ->
  exists w rest, x :: r = w ++ rest /\ word w /\
                 match rest with [] => True | y :: _ => is_space y = true end.
Proof.
  revert x. induction r as [|y r IH]; intros x Hx.
  - exists [x], []. repeat split; try discriminate. simpl. now rewrite Hx.
  - destruct (is_space y) eqn:Hy.
    + exists [x], (y :: r). repeat split; try discriminate; auto.
      simpl. now rewrite Hx.
    + destruct (IH y Hy) as (w & rest & E & [_ Hw] & Hr).
      exists (x :: w), rest. rewrite E. repeat split; try discriminate; auto.
      simpl. now rewrite Hx, Hw.
Qed.

Lemma join_nonempty (sep w : str) (ws : list str) : w <> [] -> join sep (w :: ws) <> [].
Proof.
  intros Hw. destruct ws; simpl; [exact Hw|].
  destruct w; [contradiction|discriminate].
Qed.

(** Collapsing and stripping leaves the words, with one space between
    them. *)
Lemma strip_collapse_words (s : str) :
  strip (collapse_spaces s) = join [SP] (split s).
Proof.
  unfold strip, collapse_spaces.
  rewrite lstrip_collapse, <- (split_lstrip s).
  destruct (lstrip_spec s) as (_ & _ & _ & Hhead).
  remember (lstrip s) as t eqn:Et. clear Et s.
  remember (List.length t) as k eqn:Ek.
  revert t Ek Hhead. induction k as [k IH] using lt_wf_ind. intros t Ek Hhead.
  destruct t as [|x r]; [reflexivity|].
  destruct (leading_word x r Hhead) as (w & rest & E & Hw & Hrest).
  rewrite E. destruct Hw as [Hne Hns].
  rewrite collapse_word by assumption.
  unfold split. rewrite split_from_word by assumption. rewrite app_nil_r.
  destruct rest as [|y r'].
  - simpl. rewrite app_nil_r.
    destruct (rev w) eqn:Er.
    + apply (f_equal (@rev _)) in Er. rewrite rev_involutive in Er. now subst.
    + rewrite <- Er, rev_involutive. simpl. apply rstrip_word. now split.
  - simpl collapse_from. simpl split_from. rewrite Hrest.
    destruct (rev w) as [|c cs] eqn:Er.
    { apply (f_equal (@rev _)) in Er. rewrite rev_involutive in Er. now subst. }
    rewrite <- Er, rev_involutive. rewrite collapse_in_run.
    fold (split r'). rewrite <- (split_lstrip r').
    destruct (lstrip_spec r') as (l & El & _ & Hh').
    assert (Hlen : (List.length (lstrip r') < k)%nat).
    { subst k. apply (f_equal (@List.length _)) in E. simpl in E.
      rewrite length_app in E. simpl in E.
      apply (f_equal (@List.length _)) in El. rewrite length_app in El.
      destruct w; [contradiction|]. simpl in E |- *. lia. }
    specialize (IH _ Hlen (lstrip r') eq_refl Hh').
    assert (Hsp : rstrip (SP :: collapse_from (lstrip r') false)
                  = match rstrip (collapse_from (lstrip r') false) with
                    | [] => []
                    | t => SP :: t
                    end) by reflexivity.
    rewrite rstrip_app, Hsp, IH.
    pose proof (split_words (lstrip r')) as Hws.
    destruct (split (lstrip r')) as [|q qs] eqn:Es.
    + simpl. apply rstrip_word. now split.
    + inversion Hws as [|? ? [Hq _] _]; subst.
      destruct (join [SP] (q :: qs)) as [|j js] eqn:Ej.
      * exfalso. revert Ej. now apply join_nonempty.
      * change (join [SP] (w :: q :: qs)) with (w ++ [SP] ++ join [SP] (q :: qs)).
        now rewrite Ej.
Qed.

Lemma flat_map_split_words (ps : list str) : Forall word (flat_map split ps).
Proof.
  induction ps as [|p ps IH]; simpl; [constructor|].
  apply Forall_app. split; [apply split_words|exact IH].
Qed.

Lemma clean_text_words (ps : list str) :
  clean_text ps = join [SP] (flat_map split ps).
Proof.
  unfold clean_text. now rewrite strip_collapse_words, split_join_newline.
Qed.

(** X6.  The cleaning of line 27 keeps the words and nothing else: the
    cleaned text is the words of the fragments, in order, with one plain
    space between two words; splitting it gives those words back, and
    cleaning it again changes nothing. *)
Theorem clean_text_is_words (ps : list str) :
  clean_text ps = join [SP] (flat_map split ps) /\
  split (clean_text ps) = flat_map split ps /\
  clean_text [clean_text ps] = clean_text ps.
Proof.
  assert (S1 : split (clean_text ps) = flat_map split ps).
  { rewrite clean_text_words. apply split_join, flat_map_split_words. }
  split; [apply clean_text_words|]. split; [exact S1|].
  rewrite (clean_text_words [clean_text ps]). simpl. rewrite app_nil_r, S1.
  symmetry. apply clean_text_words.
Qed.

(** X7.  A text that [fetch_clean] returns has at least three words, and
    its words are exactly those of the fragments that have three words or
    more, in document order. *)
Theorem extracted_text_words (page : soup) (title text : str) :
  extract page = Ok (title, text) ->
  split text
  = flat_map split (filter (fun t => 3 <=? len (split t)) (fragments page)) /\
  3 <= len (split text).
Proof.
  intros H. apply extract_ok in H. destruct H as [Hne ->].
  assert (E : collect_parts (fragments page)
              = filter (fun t => 3 <=? len (split t)) (fragments page))
    by apply (collect_parts_from (fragments page) []).
  assert (S1 : split (clean_text (collect_parts (fragments page)))
               = flat_map split (collect_parts (fragments page))).
  { rewrite clean_text_words. apply split_join, flat_map_split_words. }
  rewrite S1, E. split; [reflexivity|].
  destruct (filter _ (fragments page)) as [|p ps] eqn:F.
  - exfalso. apply Hne. rewrite E. reflexivity.
  - assert (Hin : In p (filter (fun t => 3 <=? len (split t)) (fragments page)))
      by (rewrite F; now left).
    apply filter_In in Hin. destruct Hin as [_ Hp]. apply Z.leb_le in Hp.
    simpl. rewrite len_app. pose proof (len_nonneg (flat_map split ps)). lia.
Qed.

Lemma extracted_text_words_witness :
  split (of_string "alpha beta gamma")
  = flat_map split (filter (fun t => 3 <=? len (split t)) (fragments page_one)) /\
  3 <= len (split (of_string "alpha beta gamma")).
Proof.
  apply (extracted_text_words page_one (of_string "Example")).
  vm_compute. reflexivity.
Defined.

Lemma decompose_all_tag (names : list str) (name : str) (kids : list node) :
  decompose_all names (Tag name kids)
  = if name_in name names then []
    else [Tag name (flat_map (decompose_all names) kids)].
Proof. reflexivity. Qed.

Lemma flat_map_cons {A B : Type} (f : A -> list B) (x : A) (l : list A) :
  flat_map f (x :: l) = f x ++ flat_map f l.
Proof. reflexivity. Qed.

Lemma grafted_decompose (l l' : list node) :
  grafted l l' ->
  flat_map (decompose_all removed_tags) l' = flat_map (decompose_all removed_tags) l.
Proof.
  induction 1 as [pre post name kids Hn|pre post name kids kids' _ IH];
    rewrite !flat_map_app; f_equal; rewrite !flat_map_cons, !decompose_all_tag.
  - now rewrite Hn.
  - destruct (name_in name removed_tags); [reflexivity|]. now rewrite IH.
Qed.

(** X8.  Whatever stands under a tag of a removed kind (script, nav, form
    and the like) never reaches the text: putting such a subtree anywhere
    in a page, with any content, leaves the fragments unchanged, and with
    them the outcome: the same text or the same failure. *)
Theorem removed_subtree_is_ignored (page page' : soup) :
  grafted page page' ->
  fragments page' = fragments page /\
  match extract page, extract page' with
  | Ok (_, text), Ok (_, text') => text' = text
  | Raise e, Raise e' => e' = e
  | _, _ => False
  end.
Proof.
  intros H. apply grafted_decompose in H.
  assert (F : fragments page' = fragments page) by (unfold fragments; now rewrite H).
  split; [exact F|]. unfold extract. rewrite F.
  destruct (is_empty _); reflexivity.
Qed.

Lemma removed_subtree_is_ignored_witness :
  fragments page_with_nav = fragments page_plain /\
  match extract page_plain, extract page_with_nav with
  | Ok (_, text), Ok (_, text') => text' = text
  | Raise e, Raise e' => e' = e
  | _, _ => False
  end.
Proof.
  apply (removed_subtree_is_ignored page_plain page_with_nav).
  apply (graft_below [] [] (of_string "body")
           [paragraph "alpha beta gamma"]
           [Tag (of_string "nav") [paragraph "Home About Contact Us"];
            paragraph "alpha beta gamma"]).
  apply (graft_here [] [paragraph "alpha beta gamma"] (of_string "nav")).
  reflexivity.
Defined.

(** ** More on parse_json *)

Lemma brace_span_no_open (s : str) : ~ In (chr "{") s -> brace_span s = None.
Proof.
  induction s as [|x r IH]; intros H; [reflexivity|]. simpl.
  destruct (N.eqb_spec x 123) as [->|_].
  - exfalso. apply H. now left.
  - apply IH. intros Hin. apply H. now right.
Qed.

(** A fenced match needs a backtick and a pair of braces in the text. *)
Lemma fenced_needs (s g : str) :
  re_search fenced_re s = Some g ->
  In (chr "`") s /\ In (chr "{") s /\ In (chr "}") s.
Proof.
  intros H. destruct (fenced_found s g H)
    as (pre & ws1 & mid & ws2 & rest & -> & -> & _).
  repeat split; apply in_or_app; right.
  - now left.
  - apply in_or_app. right. apply in_or_app. right. now left.
  - apply in_or_app. right. apply in_or_app. right.
    apply in_or_app. left. right. apply in_or_app. right. now left.
Qed.

(** X9.  A payload that does not decode and lacks an opening brace, or
    lacks a closing brace, always comes back as the fallback: neither
    pattern can find a span in it. *)
Theorem parse_json_without_braces (loads : str -> option json) (s : str) :
  loads s = None ->
  ~ In (chr "{") s \/ ~ In (chr "}") s ->
  parse_json loads s = Ok (fallback s).
Proof.
  intros Hs Hb. unfold parse_json, call_loads. rewrite Hs. simpl.
  destruct (re_search fenced_re s) as [g|] eqn:F.
  - exfalso. destruct (fenced_needs s g F) as (_ & Ho & Hc). tauto.
  - simpl. rewrite re_search_braced.
    destruct Hb as [Hb|Hb];
      [rewrite (brace_span_no_open s Hb)|rewrite (brace_span_no_close s Hb)];
      reflexivity.
Qed.

Lemma parse_json_without_braces_witness :
  parse_json json_loads (of_string "Sorry, I cannot summarize this.")
  = Ok (fallback (of_string "Sorry, I cannot summarize this.")).
Proof.
  apply (parse_json_without_braces json_loads).
  - vm_compute. reflexivity.
  - left. intros H. simpl in H. repeat destruct H as [H|H]; try discriminate H. exact H.
Defined.

Lemma rfind_from_app_last (c : char) (mid post : str) :
  ~ In c post ->
  forall i last, rfind_from c (mid ++ c :: post) i last = i + len mid.
Proof.
  intros Hp. induction mid as [|x mid IH]; intros i last; simpl.
  - rewrite N.eqb_refl, rfind_from_absent by assumption. rewrite len_nil. lia.
  - rewrite IH, len_cons. lia.
Qed.

(** The braces span of a text whose first opening brace and last closing
    brace are known. *)
Lemma brace_span_found (pre mid post : str) :
  ~ In (chr "{") pre -> ~ In (chr "}") post ->
  brace_span (pre ++ (chr "{" :: mid ++ [chr "}"]) ++ post)
  = Some (chr "{" :: mid ++ [chr "}"]).
Proof.
  intros Hpre Hpost. induction pre as [|x pre IH]; simpl.
  - rewrite <- app_assoc. simpl.
    unfold rfind. rewrite (rfind_from_app_last 125%N mid post Hpost).
    pose proof (len_nonneg mid).
    destruct (Z.leb_spec 0 (0 + len mid)); [|lia].
    do 2 f_equal.
    replace (Z.to_nat (0 + len mid + 1)) with (List.length (mid ++ [125%N]))
      by (rewrite length_app; unfold len; simpl; lia).
    change (mid ++ 125%N :: post) with (mid ++ [125%N] ++ post).
    rewrite app_assoc. apply firstn_app_length.
  - destruct (N.eqb_spec x 123) as [->|_].
    + exfalso. apply Hpre. now left.
    + apply IH. intros H. apply Hpre. now right.
Qed.

(** X10.  JSON wrapped in prose is recovered: when the payload does not
    decode, holds no backtick, and its first opening brace and last closing
    brace enclose [g], the result is the value of [g] if [g] decodes and
    the fallback otherwise. *)
Theorem parse_json_object_in_prose (loads : str -> option json)
    (pre mid post : str) :
  let g := chr "{" :: mid ++ [chr "}"] in
  let s := pre ++ g ++ post in
  loads s = None ->
  ~ In (chr "`") s -> ~ In (chr "{") pre -> ~ In (chr "}") post ->
  parse_json loads s = match loads g with
                       | Some v => Ok v
                       | None => Ok (fallback s)
                       end.
Proof.
  intros g s Hs Htick Hpre Hpost. unfold parse_json, call_loads. rewrite Hs. simpl.
  destruct (re_search fenced_re s) as [g'|] eqn:F.
  - exfalso. destruct (fenced_needs s g' F) as (Ht & _). tauto.
  - simpl. rewrite re_search_braced. unfold s, g.
    rewrite (brace_span_found pre mid post Hpre Hpost).
    destruct (loads (chr "{" :: mid ++ [chr "}"])); reflexivity.
Qed.

Ltac absent :=
  let H := fresh in
  intros H; simpl in H; repeat destruct H as [H|H]; try discriminate H; exact H.

Lemma parse_json_object_in_prose_witness :
  parse_json json_loads
    (of_string "Here you go: " ++ (chr "{" :: qq "'abstract':'x','bullets':[]" ++ [chr "}"])
     ++ of_string " Hope it helps.")
  = match json_loads (chr "{" :: qq "'abstract':'x','bullets':[]" ++ [chr "}"]) with
    | Some v => Ok v
    | None =>
        Ok (fallback
              (of_string "Here you go: "
               ++ (chr "{" :: qq "'abstract':'x','bullets':[]" ++ [chr "}"])
               ++ of_string " Hope it helps."))
    end.
Proof.
  apply (parse_json_object_in_prose json_loads (of_string "Here you go: ")
           (qq "'abstract':'x','bullets':[]") (of_string " Hope it helps.")).
  - vm_compute. reflexivity.
  - absent.
  - absent.
  - absent.
Defined.

(** ** More on summarize_block *)

Lemma prompt_text_split (text : str) (bullets max_words : Z) :
  prompt_text text bullets max_words
  = prompt_header bullets max_words ++ slice_to text 16000.
Proof.
  unfold prompt_header, prompt_text.
  change (slice_to (@nil char) 16000) with (@nil char).
  rewrite app_nil_r. now rewrite <- !app_assoc.
Qed.

(** X11.  In the pipeline no chunk is cut by the 16000-character cap of
    the prompt: every chunk of the chunker, run with its defaults, is
    embedded whole after the header. *)
Theorem chunk_prompt_is_whole (text : str) (cs : list str) (c : str)
    (bullets max_words : Z) :
  chunks text 12000 400 = Some cs -> In c cs ->
  prompt_text c bullets max_words = prompt_header bullets max_words ++ c.
Proof.
  intros E Hin. rewrite prompt_text_split. f_equal.
  apply slice_whole.
  unfold chunks in E. destruct (Z.leb_spec (len text) 12000) as [Hs|Hl].
  - injection E as <-. destruct Hin as [<-|[]]. lia.
  - destruct (spans_loop_spec text 12000 400 ltac:(lia) ltac:(lia)
                (List.length text) 0 ltac:(lia) ltac:(unfold len; lia))
      as (sp & _ & E2 & F & _).
    rewrite E2 in E. injection E as <-.
    apply in_map_iff in Hin. destruct Hin as ([i seg] & <- & Hin).
    rewrite Forall_forall in F. destruct (F _ Hin) as [_ Hlen]. simpl in *. lia.
Qed.

Lemma chunk_prompt_is_whole_witness :
  prompt_text (of_string "alpha beta gamma") 6 180
  = prompt_header 6 180 ++ of_string "alpha beta gamma".
Proof.
  apply (chunk_prompt_is_whole (of_string "alpha beta gamma")
           [of_string "alpha beta gamma"]).
  - reflexivity.
  - now left.
Defined.

Lemma len_slice_to {A : Type} (l : list A) (k : Z) :
  0 <= k -> len (slice_to l k) = Z.min k (len l).
Proof.
  intros Hk. unfold slice_to.
  pose proof (len_slice_window l 0 k ltac:(lia) (len_nonneg l) Hk) as L.
  simpl in L. rewrite L. lia.
Qed.

(** X12.  The merged abstract is kept up to 20000 characters, but the final
    call sends only its first 16000: what lies beyond never reaches the
    model. *)
Theorem merged_abstract_is_cut_twice (sect : list json) (merged_abs : str)
    (bullets max_words : Z) :
  merge_abstracts sect = Ok merged_abs ->
  len merged_abs <= 20000 /\
  prompt_text merged_abs bullets max_words
  = prompt_header bullets max_words ++ firstn (Z.to_nat 16000) merged_abs.
Proof.
  intros H. unfold merge_abstracts in H.
  destruct (mapR _ sect) as [items|]; [|discriminate].
  destruct (mapR as_str items) as [strs|]; [|discriminate].
  injection H as <-. split.
  - rewrite len_slice_to by lia. lia.
  - rewrite prompt_text_split. f_equal.
    set (x := slice_to (join [SP] strs) 20000).
    destruct (Z.le_gt_cases (len x) 16000).
    + unfold slice_to at 1. rewrite slice_whole by assumption.
      symmetry. apply firstn_all2. unfold len in *. lia.
    + rewrite slice_to_firstn by lia. reflexivity.
Qed.

Lemma merged_abstract_is_cut_twice_witness :
  len (of_string "part one") <= 20000 /\
  prompt_text (of_string "part one") 6 180
  = prompt_header 6 180 ++ firstn (Z.to_nat 16000) (of_string "part one").
Proof.
  apply (merged_abstract_is_cut_twice [section_one]).
  vm_compute. reflexivity.
Defined.

(** ** More on summarize_url *)

Lemma bind_raise {W A B : Type} (m : M W A) (k : A -> M W B) (w w' : W) (e : exn) :
  m w = (Raise e, w') -> bind m k w = (Raise e, w').
Proof. unfold bind. now intros ->. Qed.

Lemma bind_step {W A B : Type} (m : M W A) (k : A -> M W B) (w w' : W) (a : A) :
  m w = (Ok a, w') -> bind m k w = k a w'.
Proof. unfold bind. now intros ->. Qed.

(** X13.  [summarize_url] fetches the page before it looks for the key: a
    failed fetch or a page without readable text is what the caller sees,
    key or no key; a missing or empty key is reported once the page has
    been fetched and cleaned, and before any call of the model. *)
Theorem errors_come_in_order (W : Type) (E : world W) (url name : str)
    (bullets max_words : Z) (w : W) :
  (forall e w1, http_get E url w = (Raise e, w1) ->
     summarize_url E url name bullets max_words w = (Raise e, w1)) /\
  (forall page w1, http_get E url w = (Ok page, w1) ->
     collect_parts (fragments page) = [] ->
     summarize_url E url name bullets max_words w
     = (Raise (SystemExit no_text_msg), w1)) /\
  (forall title text w1, fetch_clean E url w = (Ok (title, text), w1) ->
     getenv_key E w1 = None \/ getenv_key E w1 = Some [] ->
     summarize_url E url name bullets max_words w
     = (Raise (SystemExit no_key_msg), w1)).
Proof.
  split; [|split].
  - intros e w1 H. unfold summarize_url. apply bind_raise.
    unfold fetch_clean. now apply bind_raise.
  - intros page w1 H Hnone. unfold summarize_url. apply bind_raise.
    unfold fetch_clean. rewrite (bind_step _ _ _ _ _ H).
    unfold lift, extract. now rewrite Hnone.
  - intros title text w1 H Hkey. unfold summarize_url.
    rewrite (bind_step _ _ _ _ _ H). apply bind_raise.
    unfold make_model. apply bind_raise. unfold load_key.
    destruct Hkey as [-> | ->]; reflexivity.
Qed.

Lemma errors_come_in_order_witness :
  summarize_url world_no_key sample_url sample_model 6 180 0%nat
  = (Raise (SystemExit no_key_msg), 0%nat).
Proof.
  apply (proj2 (proj2 (errors_come_in_order nat world_no_key sample_url
                         sample_model 6 180 0%nat))
           (of_string "Example") (of_string "alpha beta gamma")).
  - vm_compute. reflexivity.
  - left. reflexivity.
Defined.

Lemma finish_keys (fd : dict) (merged_abs : str) (merged_bul : list json)
    (title url : str) (max_words : Z) (d : dict) :
  finish (JDict fd) merged_abs merged_bul title url max_words = Ok d ->
  dict_lookup d (of_string "title") = Some (JStr title) /\
  dict_lookup d (of_string "url") = Some (JStr url) /\
  (forall k, own_key k = false -> dict_lookup d k = dict_lookup fd k).
Proof.
  intros H. simpl in H. injection H as <-. split; [|split].
  - rewrite dict_lookup_set_other by reflexivity. apply dict_lookup_set_same.
  - apply dict_lookup_set_same.
  - intros k Hk. unfold own_key in Hk.
    apply orb_false_iff in Hk. destruct Hk as [Hk Hu].
    apply orb_false_iff in Hk. destruct Hk as [Hk Ht].
    apply orb_false_iff in Hk. destruct Hk as [Ha Hb].
    rewrite !dict_lookup_set_other by assumption.
    now apply dict_lookup_setdefault_other.
Qed.

(** X14.  Every summary that [summarize_url] returns carries the fetched
    title and the given url under "title" and "url", whatever the model put
    under those keys, and has an abstract and bullets; any other key of the
    final answer is passed on untouched. *)
Theorem summary_keys (W : Type) (E : world W) (url name : str)
    (bullets max_words : Z) (w w' : W) (d : dict) :
  summarize_url E url name bullets max_words w = (Ok d, w') ->
  exists title text w1 m merged_abs w3 fd,
    fetch_clean E url w = (Ok (title, text), w1) /\
    summarize_block E m merged_abs bullets max_words w3 = (Ok (JDict fd), w') /\
    dict_lookup d (of_string "title") = Some (JStr title) /\
    dict_lookup d (of_string "url") = Some (JStr url) /\
    dict_lookup d (of_string "abstract") <> None /\
    dict_lookup d (of_string "bullets") <> None /\
    (forall k, own_key k = false -> dict_lookup d k = dict_lookup fd k).
Proof.
  intros H. apply summarize_url_ok in H.
  destruct H as (title & text & w1 & m & w2 & cs & sect & w3 & merged_abs
                 & merged_bul & final & Hfetch & _ & _ & _ & _ & _ & Hf & H).
  destruct final as [| | | | | |fd]; try discriminate.
  destruct (finish_spec fd merged_abs merged_bul title url max_words)
    as (d' & Hd & Hbul & Habs).
  destruct (finish_keys _ _ _ _ _ _ _ H) as (Ht & Hu & Hk).
  rewrite Hd in H. injection H as ->.
  exists title, text, w1, m, merged_abs, w3, fd.
  repeat split; try assumption.
  - rewrite Habs. discriminate.
  - rewrite Hbul. discriminate.
Qed.

Lemma summary_keys_witness :
  exists title text w1 m merged_abs w3 fd,
    fetch_clean world_two_bullets sample_url 0%nat = (Ok (title, text), w1) /\
    summarize_block world_two_bullets m merged_abs 6 180 w3 = (Ok (JDict fd), 2%nat) /\
    dict_lookup summary_two_bullets (of_string "title") = Some (JStr title) /\
    dict_lookup summary_two_bullets (of_string "url") = Some (JStr sample_url) /\
    dict_lookup summary_two_bullets (of_string "abstract") <> None /\
    dict_lookup summary_two_bullets (of_string "bullets") <> None /\
    (forall k, own_key k = false ->
               dict_lookup summary_two_bullets k = dict_lookup fd k).
Proof.
  apply (summary_keys nat world_two_bullets sample_url sample_model 6 180 0%nat).
  vm_compute. reflexivity.
Defined.

Section Instrumented.
Variables W X : Type.
Variable tick : prompt -> X -> X.
Variable E : world W.

Lemma erase_bind {A B : Type} (m : M W A) (m' : M (W * X) A)
    (f : A -> M W B) (f' : A -> M (W * X) B) :
  (forall w k, erase (m' (w, k)) = m w) ->
  (forall a w k, erase (f' a (w, k)) = f a w) ->
  forall w k, erase (bind m' f' (w, k)) = bind m f w.
Proof.
  intros Hm Hf w k. unfold bind. specialize (Hm w k).
  destruct (m' (w, k)) as [r [w1 k1]]. unfold erase in Hm. simpl in Hm.
  rewrite <- Hm. destruct r; [apply Hf|reflexivity].
Qed.

Lemma erase_mapM {A B : Type} (f : A -> M W B) (f' : A -> M (W * X) B) :
  (forall a w k, erase (f' a (w, k)) = f a w) ->
  forall l w k, erase (mapM f' l (w, k)) = mapM f l w.
Proof.
  intros Hf. induction l as [|a l IH]; intros w k; [reflexivity|].
  simpl. apply erase_bind; [apply Hf|]. intros b w1 k1.
  apply erase_bind; [apply IH|]. reflexivity.
Qed.

Lemma erase_summarize_block (m : model) (text : str) (bullets max_words : Z) :
  forall w k,
  erase (summarize_block (instrumented tick E) m text bullets max_words (w, k))
  = summarize_block E m text bullets max_words w.
Proof.
  intros w k. unfold summarize_block. apply erase_bind; [|reflexivity].
  intros w0 k0. simpl. destruct (generate_content E m _ w0). reflexivity.
Qed.

Lemma erase_fetch_clean (url : str) :
  forall w k,
  erase (fetch_clean (instrumented tick E) url (w, k)) = fetch_clean E url w.
Proof.
  intros w k. unfold fetch_clean. apply erase_bind; [|reflexivity].
  intros w0 k0. simpl. destruct (http_get E url w0). reflexivity.
Qed.

Lemma erase_make_model (name : str) :
  forall w k,
  erase (make_model (instrumented tick E) name (w, k)) = make_model E name w.
Proof.
  intros w k. unfold make_model. apply erase_bind; [|reflexivity].
  intros w0 k0. unfold load_key. simpl.
  destruct (getenv_key E w0) as [[|c key]|]; reflexivity.
Qed.

(** The record changes nothing of a run. *)
Lemma erase_summarize_url (url name : str) (bullets max_words : Z) :
  forall w k,
  erase (summarize_url (instrumented tick E) url name bullets max_words (w, k))
  = summarize_url E url name bullets max_words w.
Proof.
  intros w k. unfold summarize_url.
  apply erase_bind; [apply erase_fetch_clean|]. intros [title text] w1 k1.
  apply erase_bind; [apply erase_make_model|]. intros m w2 k2.
  apply erase_bind; [intros; destruct (chunks text 12000 400); reflexivity|].
  intros cs w3 k3.
  apply erase_bind; [apply erase_mapM; intros; apply erase_summarize_block|].
  intros sect w4 k4.
  apply erase_bind; [reflexivity|]. intros merged_abs w5 k5.
  apply erase_bind; [reflexivity|]. intros merged_bul w6 k6.
  apply erase_bind; [apply erase_summarize_block|]. intros final w7 k7.
  reflexivity.
Qed.

Lemma record_fetch_clean (url : str) (s s' : W * X) (r : result (str * str)) :
  fetch_clean (instrumented tick E) url s = (r, s') -> snd s' = snd s.
Proof.
  unfold fetch_clean, bind, lift. simpl.
  destruct (http_get E url (fst s)) as [[page|e] w1]; intros H;
    injection H as _ <-; reflexivity.
Qed.

Lemma record_make_model (name : str) (s s' : W * X) (r : result model) :
  make_model (instrumented tick E) name s = (r, s') -> s' = s.
Proof.
  unfold make_model, bind, load_key, ret. simpl.
  destruct (getenv_key E (fst s)) as [[|c key]|]; intros H;
    injection H as _ <-; reflexivity.
Qed.

Lemma record_summarize_block (m : model) (text : str) (bullets max_words : Z)
    (s s' : W * X) (r : result json) :
  summarize_block (instrumented tick E) m text bullets max_words s = (r, s') ->
  snd s' = tick (block_prompt text bullets max_words) (snd s).
Proof.
  unfold summarize_block, bind, lift. simpl.
  destruct (generate_content E m _ (fst s)) as [[resp|e] w1]; intros H;
    injection H as _ <-; reflexivity.
Qed.

Lemma record_mapM (m : model) (bullets max_words : Z) (cs : list str) :
  forall (s s' : W * X) (sect : list json),
  mapM (fun c => summarize_block (instrumented tick E) m c bullets max_words) cs s
  = (Ok sect, s') ->
  snd s' = fold_left (fun x c => tick (block_prompt c bullets max_words) x) cs (snd s).
Proof.
  induction cs as [|c cs IH]; intros s s' sect H; simpl in H.
  - unfold ret in H. injection H as _ <-. reflexivity.
  - apply bind_ok in H. destruct H as (v & s1 & H1 & H).
    apply bind_ok in H. destruct H as (vs & s2 & H2 & H).
    unfold ret in H. injection H as _ <-.
    apply record_summarize_block in H1. apply IH in H2. simpl.
    now rewrite H2, H1.
Qed.

(** The record of a run that returns: the chunk calls in order, then the
    final call. *)
Lemma record_summarize_url (url name : str) (bullets max_words : Z)
    (w w' : W) (x0 x : X) (d : dict) :
  summarize_url (instrumented tick E) url name bullets max_words (w, x0)
  = (Ok d, (w', x)) ->
  exists title text w1 cs sect merged_abs,
    fetch_clean E url w = (Ok (title, text), w1) /\
    chunks text 12000 400 = Some cs /\
    merge_abstracts sect = Ok merged_abs /\
    x = tick (block_prompt merged_abs bullets max_words)
          (fold_left
             (fun x c => tick (block_prompt c (Z.min 7 bullets) (Z.min 220 max_words)) x)
             cs x0).
Proof.
  intros H. apply summarize_url_ok in H.
  destruct H as (title & text & [w1 x1] & m & [w2 x2] & cs & sect & [w3 x3]
                 & merged_abs & merged_bul & final
                 & Hfetch & Hmodel & Hcs & Hsect & Ha & _ & Hf & _).
  pose proof (erase_fetch_clean url w x0) as Hsim.
  rewrite Hfetch in Hsim. unfold erase in Hsim. simpl in Hsim.
  apply record_fetch_clean in Hfetch. apply record_make_model in Hmodel.
  apply record_mapM in Hsect. apply record_summarize_block in Hf.
  simpl in *. injection Hmodel as -> ->. subst x1.
  exists title, text, w1, cs, sect, merged_abs.
  split; [now symmetry|]. split; [exact Hcs|]. split; [exact Ha|].
  now rewrite Hf, Hsect.
Qed.
End Instrumented.

Lemma fold_count {A : Type} (l : list A) (k : nat) :
  fold_left (fun x _ => S x) l k = (k + List.length l)%nat.
Proof.
  revert k. induction l as [|a l IH]; intros k; simpl; [lia|]. rewrite IH. lia.
Qed.


Lemma fetched_text_plain (W : Type) (E : world W) (url : str) (w w1 : W)
    (title text : str) :
  fetch_clean E url w = (Ok (title, text), w1) -> ~ In NL text.
Proof.
  unfold fetch_clean, bind, lift.
  destruct (http_get E url w) as [[page|e] w0]; [|discriminate].
  intros H. injection H as Hx _.
  destruct (extract_ok _ _ _ Hx) as [_ ->]. apply clean_text_no_newline.
Qed.

(** X15.  A run of [summarize_url] calls the model once per chunk and once
    more: counting the calls changes nothing else, and a run that returns
    has made [len(chunks) + 1] of them, which is at least 403 when the
    cleaned text is longer than 12000 characters. *)
Theorem model_calls (W : Type) (E : world W) (url name : str)
    (bullets max_words : Z) (w : W) (k0 : nat) :
  erase (summarize_url (counted E) url name bullets max_words (w, k0))
  = summarize_url E url name bullets max_words w /\
  forall d w' k,
    summarize_url (counted E) url name bullets max_words (w, k0) = (Ok d, (w', k)) ->
    exists title text w1 cs,
      fetch_clean E url w = (Ok (title, text), w1) /\
      chunks text 12000 400 = Some cs /\
      k = (k0 + List.length cs + 1)%nat /\
      (12000 < len text -> (k0 + 403 <= k)%nat).
Proof.
  split; [apply erase_summarize_url|].
  intros d w' k H. apply record_summarize_url in H.
  destruct H as (title & text & w1 & cs & sect & merged_abs & Hfetch & Hcs & _ & Hk).
  rewrite fold_count in Hk.
  exists title, text, w1, cs. split; [exact Hfetch|]. split; [exact Hcs|].
  split; [lia|]. intros Hlong.
  pose proof (fetched_text_plain _ _ _ _ _ _ _ Hfetch) as Hnl.
  assert (Hcount : 402 <= len cs).
  { unfold chunks in Hcs. destruct (Z.leb_spec (len text) 12000); [lia|].
    apply (chunks_loop_tail text 12000 400 _ Hnl ltac:(lia) 0 cs) in Hcs;
      [|lia|unfold len; lia].
    destruct Hcs as (_ & _ & T3). apply T3. lia. }
  unfold len in Hcount. lia.
Qed.

Lemma model_calls_witness :
  exists title text w1 cs,
    fetch_clean world_two_bullets sample_url 0%nat = (Ok (title, text), w1) /\
    chunks text 12000 400 = Some cs /\
    2%nat = (0 + List.length cs + 1)%nat /\
    (12000 < len text -> (0 + 403 <= 2)%nat).
Proof.
  apply (proj2 (model_calls nat world_two_bullets sample_url sample_model
                  6 180 0%nat 0%nat) summary_two_bullets 2%nat 2%nat).
  vm_compute. reflexivity.
Defined.



Lemma get_item_raises (v : json) (key : string) (default : json) (e : exn) :
  get_item v key default = Raise e -> e = AttributeError /\ is_dict v = false.
Proof. destruct v; simpl; intros H; try discriminate; injection H as <-; auto. Qed.

Lemma mapR_get_item_non_dict (key : string) (default : json) (sect : list json) :
  (exists s, In s sect /\ is_dict s = false) ->
  mapR (fun s => get_item s key default) sect = Raise AttributeError.
Proof.
  induction sect as [|v sect IH]; intros (s & Hin & Hs); [destruct Hin|].
  simpl. destruct (get_item v key default) as [x|e] eqn:G.
  - destruct Hin as [->|Hin].
    + destruct s; try discriminate Hs; discriminate G.
    + rewrite IH by eauto. reflexivity.
  - now destruct (get_item_raises _ _ _ _ G) as [-> _].
Qed.

(** X17.  An answer that is valid JSON but not an object stops the run with
    an [AttributeError]: from a chunk, when the abstracts are merged and
    before the final call is made; from the final call, when its result is
    completed. *)
Theorem non_object_reply_aborts (W : Type) (E : world W) (url name : str)
    (bullets max_words : Z) (w w1 w2 w3 : W) (title text : str) (m : model)
    (cs : list str) (sect : list json) :
  fetch_clean E url w = (Ok (title, text), w1) ->
  make_model E name w1 = (Ok m, w2) ->
  chunks text 12000 400 = Some cs ->
  mapM (fun c => summarize_block E m c (Z.min 7 bullets) (Z.min 220 max_words)) cs w2
  = (Ok sect, w3) ->
  ((exists s, In s sect /\ is_dict s = false) ->
   summarize_url E url name bullets max_words w = (Raise AttributeError, w3)) /\
  (forall merged_abs merged_bul final w4,
     merge_abstracts sect = Ok merged_abs ->
     merge_bullets sect bullets = Ok merged_bul ->
     summarize_block E m merged_abs bullets max_words w3 = (Ok final, w4) ->
     is_dict final = false ->
     summarize_url E url name bullets max_words w = (Raise AttributeError, w4)).
Proof.
  intros Hfetch Hmodel Hcs Hsect. unfold summarize_url.
  rewrite (bind_step _ _ _ _ _ Hfetch), (bind_step _ _ _ _ _ Hmodel), Hcs.
  unfold exhaust. rewrite (bind_step _ _ w2 w2 cs eq_refl).
  rewrite (bind_step _ _ _ _ _ Hsect).
  split.
  - intros Hbad. apply bind_raise. unfold lift, merge_abstracts.
    now rewrite (mapR_get_item_non_dict _ _ _ Hbad).
  - intros merged_abs merged_bul final w4 Ha Hb Hf Hnd.
    rewrite (bind_step _ _ w3 w3 merged_abs) by (unfold lift; now rewrite Ha).
    rewrite (bind_step _ _ w3 w3 merged_bul) by (unfold lift; now rewrite Hb).
    rewrite (bind_step _ _ _ _ _ Hf). unfold lift.
    destruct final; try discriminate Hnd; reflexivity.
Qed.

Lemma non_object_reply_aborts_witness :
  summarize_url world_list_reply sample_url sample_model 6 180 0%nat
  = (Raise AttributeError, 1%nat).
Proof.
  apply (proj1 (non_object_reply_aborts nat world_list_reply sample_url sample_model
                  6 180 0%nat 0%nat 0%nat 1%nat (of_string "Example")
                  (of_string "alpha beta gamma")
                  {| model_name := sample_model; json_mode := true |}
                  [of_string "alpha beta gamma"]
                  [JList [JStr (of_string "a point"); JStr (of_string "another")]]
                  ltac:(vm_compute; reflexivity) ltac:(vm_compute; reflexivity)
                  ltac:(vm_compute; reflexivity) ltac:(vm_compute; reflexivity))).
  eexists. split; [now left|reflexivity].
Defined.

(** ** main *)


(** ** The merged bullets *)

Lemma sum_bullets_flat (sect : list json) :
  forall acc all,
  sum_bullets sect acc = Ok all -> all = acc ++ flat_map bullets_of sect.
Proof.
  induction sect as [|s sect IH]; intros acc all H; simpl in H.
  - injection H as <-. simpl. now rewrite app_nil_r.
  - destruct s as [| | | | |l|d]; try discriminate.
    unfold get_item in H. unfold flat_map; fold (flat_map bullets_of sect).
    unfold bullets_of at 1.
    destruct (dict_get d (of_string "bullets") (JList [])); try discriminate.
    apply IH in H. now rewrite <- app_assoc in H.
Qed.

(** X19.  The merged bullets are the bullets of the chunks in chunk order,
    cut by the slice [[:bullets]]: the first [bullets] of them for a count
    that is not negative, and all but the last [-bullets] for a negative
    one. *)
Theorem merged_bullets_in_order (sect : list json) (bullets : Z) (l : list json) :
  merge_bullets sect bullets = Ok l ->
  let all := flat_map bullets_of sect in
  (0 <= bullets -> l = firstn (Z.to_nat bullets) all) /\
  (bullets < 0 -> l = firstn (List.length all - Z.to_nat (- bullets)) all).
Proof.
  unfold merge_bullets.
  destruct (sum_bullets sect []) as [all|e] eqn:S; [|discriminate].
  apply sum_bullets_flat in S. simpl in S. subst all.
  intros H. injection H as <-. cbv zeta.
  set (all := flat_map bullets_of sect).
  unfold slice_to, slice, clamp_index. pose proof (len_nonneg all) as L.
  change (0 <? 0) with false. cbv iota. rewrite (Z.min_l 0 (len all)) by lia.
  change (Z.to_nat 0) with 0%nat. rewrite skipn_O. split; intros Hb.
  - destruct (Z.ltb_spec bullets 0); [lia|]. rewrite Z.sub_0_r.
    destruct (Z.le_ge_cases bullets (len all)).
    + now rewrite Z.min_l by lia.
    + rewrite Z.min_r by lia. unfold len in *.
      rewrite Nat2Z.id. rewrite !firstn_all2; [reflexivity|lia|lia].
  - destruct (Z.ltb_spec bullets 0); [|lia]. f_equal. unfold len. lia.
Qed.

Lemma merged_bullets_in_order_witness :
  let sect := [JDict [(of_string "bullets", JList [JInt 1; JInt 2])];
               JDict [(of_string "abstract", JStr [])];
               JDict [(of_string "bullets", JList [JInt 3])]] in
  let all := flat_map bullets_of sect in
  (0 <= -1 -> [JInt 1; JInt 2] = firstn (Z.to_nat (-1)) all) /\
  (-1 < 0 -> [JInt 1; JInt 2]
             = firstn (List.length all - Z.to_nat (- -1)) all).
Proof.
  apply (merged_bullets_in_order _ (-1) [JInt 1; JInt 2]). reflexivity.
Defined.
